(** * LocalGPT background store: [scripts/background/initialize.js]

    A shallow embedding of the in-memory data engine of the extension's
    background script: the JavaScript values it handles, the [localDB]
    state container, the controllers and the message router, followed by
    the properties of the written specification that concern them.

    Modelling conventions.
    - Messages and the persisted snapshot cross [chrome.runtime] /
      [chrome.storage] boundaries, so every value is JSON-like: there is no
      [NaN] and no stored [undefined]; reading an absent property gives
      [None] (JavaScript's [undefined]).
    - Numbers are integers ([Z]); fractional doubles are outside the model.
    - Nested arrays and objects that the engine never inspects are opaque
      references ([VRef]), compared by identity as [===] does.
    - A plain object is a finite map from property names to values; the
      order of its keys is not observed by any controller.
    - Conversations are handled by value.  Prompts live in an explicit heap
      because [savePrompt] is specified in terms of which object it writes. *)

From Stdlib Require Import ZArith Ascii String.
From stdpp Require Import base option list gmap strings pretty sorting.

Local Open Scope Z_scope.
Local Open Scope string_scope.
Local Open Scope list_scope.

(** ** JavaScript values *)

Module JS.

Inductive value : Type :=
| VNull
| VBool (b : bool)
| VNum (n : Z)
| VStr (s : string)
| VRef (r : positive).

#[global] Instance value_eq_dec : EqDecision value.
Proof. solve_decision. Defined.

(** The result of reading a property: [None] is [undefined]. *)
Definition slot : Type := option value.

(** A plain object. *)
Abbreviation obj := (gmap string value).

(** ToBoolean. *)
Definition truthy (v : slot) : bool :=
  match v with
  | None => false
  | Some VNull => false
  | Some (VBool b) => b
  | Some (VNum n) => negb (n =? 0)%Z
  | Some (VStr s) => negb (String.eqb s "")
  | Some (VRef _) => true
  end.

(** [a === b]; with neither [NaN] nor distinct zeros it is equality of
    the primitive, and identity for references.  [Map] keys are
    compared by SameValueZero, which is the same relation here. *)
Definition strict_eq (a b : slot) : bool := bool_decide (a = b).

(** [a || b] *)
Definition or_else (a b : slot) : slot := if truthy a then a else b.

(** Object spread [{ ...a, ...b }]: the field-wise union in which the
    fields of [b] override those of [a]. *)
Definition spread (a b : obj) : obj := b ∪ a.

(** Completion of a call: a normal result or a thrown [Error], of which
    only the [message] is ever read. *)
Inductive completion (A : Type) : Type :=
| Normal (a : A)
| Throw (message : string).
Arguments Normal {A} a.
Arguments Throw {A} message.

End JS.
Import JS.

(** ** [Map]: insertion-ordered association of keys to values *)

Module JSMap.

Definition t : Type := list (slot * obj).

Fixpoint get (k : slot) (m : t) : option obj :=
  match m with
  | [] => None
  | (k', v) :: m' => if strict_eq k' k then Some v else get k m'
  end.

(** [set] keeps the position of a key that is already present and
    appends a new key at the end. *)
Fixpoint set (k : slot) (v : obj) (m : t) : t :=
  match m with
  | [] => [(k, v)]
  | (k', v') :: m' =>
      if strict_eq k' k then (k', v) :: m' else (k', v') :: set k v m'
  end.

(** [new Map(entries)] *)
Definition of_entries (entries : list (slot * obj)) : t :=
  fold_left (fun m e => set e.1 e.2 m) entries [].

(** [Array.from(m.values())] *)
Definition values (m : t) : list obj := m.*2.

Definition keys (m : t) : list slot := m.*1.

End JSMap.

(** ** The runtime the script relies on

    Built-ins whose definition is not part of the repository.  They are
    kept abstract; every property below holds for any such runtime. *)

Class Host : Type := {
  (** [String.prototype.toLowerCase] *)
  toLowerCase : string → string;
  (** time value of [new Date(v)] for a string or an object [v]; [None]
      is an invalid date, whose [getTime()] is [NaN] *)
  Date_parse : value → option Z;
  (** the [n]-th identifier handed out by [crypto.randomUUID] *)
  randomUUID : nat → string
}.

(** ** State *)

Abbreviation loc := positive.

Record Folder : Type := {
  folder_id : slot;
  conversationIds : option (list value)
}.

(** [localDB] *)
Record Store : Type := {
  conversations : list obj;
  folders : list Folder;
  prompts : list loc;
  settings : obj;
  user : obj;
  notes : list value
}.

(** The module-level variables of the script together with the objects
    they can reach. *)
Record World : Type := {
  localDB : Store;
  isDBReady : bool;
  (** whether a debounce timer is pending *)
  saveTimeout : bool;
  (** prompt objects, by address *)
  heap : gmap loc obj;
  (** how many identifiers [crypto.randomUUID] has produced *)
  drawn : nat
}.

Definition set_conversations (cs : list obj) (db : Store) : Store :=
  {| conversations := cs; folders := folders db; prompts := prompts db;
     settings := settings db; user := user db; notes := notes db |}.

Definition set_prompts (ps : list loc) (db : Store) : Store :=
  {| conversations := conversations db; folders := folders db; prompts := ps;
     settings := settings db; user := user db; notes := notes db |}.

Definition set_localDB (db : Store) (w : World) : World :=
  {| localDB := db; isDBReady := isDBReady w; saveTimeout := saveTimeout w;
     heap := heap w; drawn := drawn w |}.

Definition set_heap (h : gmap loc obj) (w : World) : World :=
  {| localDB := localDB w; isDBReady := isDBReady w;
     saveTimeout := saveTimeout w; heap := h; drawn := drawn w |}.

Definition set_drawn (n : nat) (w : World) : World :=
  {| localDB := localDB w; isDBReady := isDBReady w;
     saveTimeout := saveTimeout w; heap := heap w; drawn := n |}.

(** [saveDB]: cancel the pending timer, if any, and start a new one. *)
Definition saveDB (w : World) : World :=
  {| localDB := localDB w; isDBReady := isDBReady w; saveTimeout := true;
     heap := heap w; drawn := drawn w |}.

(** The default state of the script. *)
Definition default_user : obj :=
  {[ "id" := VStr "local-user"; "email" := VStr "local@localgpt.app";
     "plan" := VStr "pro"; "subscription_status" := VStr "active" ]}.

Definition default_localDB : Store :=
  {| conversations := []; folders := []; prompts := []; settings := ∅;
     user := default_user; notes := [] |}.

Definition initial_world : World :=
  {| localDB := default_localDB; isDBReady := false; saveTimeout := false;
     heap := ∅; drawn := 0 |}.

(** ** Messages *)

Module Request.
(** The fields of a request message that the router and the controllers
    read. *)
Record t : Type := {
  type : option string;
  action : option string;
  conversations : option (list obj);
  page : option Z;
  limit : option Z;
  searchTerm : slot;
  folderId : slot;
  prompt : option loc;
  id : slot
}.

Definition empty : t :=
  {| type := None; action := None; conversations := None; page := None;
     limit := None; searchTerm := None; folderId := None; prompt := None;
     id := None |}.
End Request.

(** What is handed to [sendResponse]. *)
Inductive Response : Type :=
| Subscription (hasSubscription : bool) (plan type : string)
    (** [{ success: true, hasSubscription, plan, type }] *)
| Registered (user : obj)          (** [{ success: true, user }] *)
| Count (count : nat)              (** [{ success: true, count }] *)
| Page (conversations : list obj) (total : nat) (page limit : Z)
    (** [{ success: true, conversations, total, page, limit }] *)
| Prompts (prompts : list loc)     (** [{ success: true, prompts }] *)
| Saved (prompt : loc)             (** [{ success: true, prompt }] *)
| Success                          (** [{ success: true }] *)
| Status (status : string)         (** [{ status }] *)
| Failure (error : string)         (** [{ success: false, error }] *)
| Echo (request : Request.t)       (** the request object itself *)
| Text (s : string)                (** a bare string *)
| Flag (b : bool)                  (** a bare boolean *)
| Undefined                        (** [undefined] *)
| Self.                            (** the [Controller] object *)

(** Property access on a conversation or prompt object. *)
Definition field (name : string) (o : obj) : slot := o !! name.

(** ** Array helpers *)

(** [Array.prototype.findIndex]; [None] stands for [-1]. *)
Fixpoint findIndex {A : Type} (p : A → bool) (l : list A) : option nat :=
  match l with
  | [] => None
  | x :: l' => if p x then Some 0%nat else S <$> findIndex p l'
  end.

(** [Array.prototype.find] *)
Fixpoint find {A : Type} (p : A → bool) (l : list A) : option A :=
  match l with
  | [] => None
  | x :: l' => if p x then Some x else find p l'
  end.

(** [Array.prototype.filter] with a callback that may throw: the first
    exception aborts the traversal. *)
Fixpoint filterM {A : Type} (p : A → completion bool) (l : list A)
  : completion (list A) :=
  match l with
  | [] => Normal []
  | x :: l' =>
      match p x with
      | Throw e => Throw e
      | Normal b =>
          match filterM p l' with
          | Throw e => Throw e
          | Normal r => Normal (if b then x :: r else r)
          end
      end
  end.

(** Relative index of [slice]: negative counts from the end, and the
    result is clamped to the array. *)
Definition clamp_index (len i : Z) : Z :=
  if (i <? 0)%Z then Z.max (len + i) 0 else Z.min i len.

(** [Array.prototype.slice(start, end)] *)
Definition slice {A : Type} (l : list A) (start stop : Z) : list A :=
  let len := Z.of_nat (length l) in
  let k := clamp_index len start in
  let final := clamp_index len stop in
  take (Z.to_nat (final - k)) (drop (Z.to_nat k) l).

(** [String.prototype.includes] *)
Fixpoint includes (s sub : string) : bool :=
  if String.prefix sub s then true
  else match s with
       | EmptyString => false
       | String _ s' => includes s' sub
       end.

(** Insertion of [x] in front of the first element it does not have to
    follow. *)
Fixpoint sort_insert {A : Type} (cmp : A → A → Z) (x : A) (l : list A)
  : list A :=
  match l with
  | [] => [x]
  | y :: l' =>
      if (cmp x y <=? 0)%Z then x :: y :: l' else y :: sort_insert cmp x l'
  end.

(** [Array.prototype.sort(cmp)], which is stable: elements that compare
    equal keep their relative order.  For a consistent comparison every
    stable sort gives this result.  For an inconsistent one -- a [NaN]
    time among valid ones -- the order is left to the engine, and this
    definition gives one rearrangement, not necessarily the engine's:
    there, only the fact that the result is a rearrangement of the input
    carries over to the script.  Every property below that names an order
    is stated for conversations that all have a valid time. *)
Fixpoint sort {A : Type} (cmp : A → A → Z) (l : list A) : list A :=
  match l with
  | [] => []
  | x :: l' => sort_insert cmp x (sort cmp l')
  end.

(** ** Logic and controllers *)

Section Controllers.
Context `{Host}.

Definition handler : Type := World → Request.t → World * completion Response.

(** Mock auth: always a Pro subscription. *)
Definition checkHasSubscription : handler := fun w _ =>
  (w, Normal (Subscription true "pro" "stripe")).

Definition registerUser : handler := fun w _ =>
  (w, Normal (Registered (user (localDB w)))).

(** *** [addConversations] *)

(** The entries [[c.id, c]] from which the lookup map is built. *)
Definition entries (cs : list obj) : list (slot * obj) :=
  (λ c, (field "id" c, c)) <$> cs.

(** Body of the [forEach] callback, on the pair of the map and the
    [changed] flag. *)
Definition upsert (st : JSMap.t * bool) (newC : obj) : JSMap.t * bool :=
  let '(conversationMap, _) := st in
  match JSMap.get (field "id" newC) conversationMap with
  | Some existing =>
      (JSMap.set (field "id" newC) (spread existing newC) conversationMap, true)
  | None =>
      (JSMap.set (field "id" newC) newC conversationMap, true)
  end.

Definition addConversations : handler := fun w request =>
  let newConvos := default [] (Request.conversations request) in
  let conversationMap := JSMap.of_entries (entries (conversations (localDB w))) in
  let '(conversationMap, changed) :=
    fold_left upsert newConvos (conversationMap, false) in
  let w' :=
    if changed
    then saveDB (set_localDB
                   (set_conversations (JSMap.values conversationMap) (localDB w))
                   w)
    else w in
  (w', Normal (Count (length (conversations (localDB w'))))).

(** *** [getConversations] *)

(** Which array the variable [results] denotes: the store's own
    [localDB.conversations], or an array created by [filter]. *)
Inductive results_ref : Type :=
| OfStore
| Fresh (l : list obj).

Definition deref (w : World) (r : results_ref) : list obj :=
  match r with
  | OfStore => conversations (localDB w)
  | Fresh l => l
  end.

(** [x.toLowerCase()] where [x] is a truthy value: only strings have the
    method. *)
Definition lower (what : string) (v : value) : completion string :=
  match v with
  | VStr s => Normal (toLowerCase s)
  | _ => Throw (String.append what ".toLowerCase is not a function")
  end.

(** [c => (c.title && c.title.toLowerCase().includes(lowerTerm))] *)
Definition title_matches (lowerTerm : string) (c : obj) : completion bool :=
  match field "title" c with
  | Some t =>
      if truthy (Some t)
      then match lower "c.title" t with
           | Normal s => Normal (includes s lowerTerm)
           | Throw e => Throw e
           end
      else Normal false
  | None => Normal false
  end.

(** [new Date(v).getTime()]; [None] is [NaN]. *)
Definition Date_getTime (v : slot) : option Z :=
  match v with
  | None => None
  | Some VNull => Some 0%Z
  | Some (VBool b) => Some (if b then 1 else 0)%Z
  | Some (VNum n) =>
      if (Z.abs n <=? 8640000000000000)%Z then Some n else None
  | Some v' => Date_parse v'
  end.

(** [new Date(a.update_time || a.create_time || 0).getTime()] *)
Definition time_of (a : obj) : option Z :=
  Date_getTime
    (or_else (or_else (field "update_time" a) (field "create_time" a))
             (Some (VNum 0))).

(** The comparison function handed to [sort]: [timeB - timeA], where a
    [NaN] result counts as [+0]. *)
Definition by_time_desc (a b : obj) : Z :=
  match time_of a, time_of b with
  | Some timeA, Some timeB => (timeB - timeA)%Z
  | _, _ => 0%Z
  end.

(** Step 1: filter by search term. *)
Definition text_filter (w : World) (searchTerm : slot) (results : results_ref)
  : completion results_ref :=
  match searchTerm with
  | Some term =>
      if truthy (Some term)
      then match lower "searchTerm" term with
           | Throw e => Throw e
           | Normal lowerTerm =>
               match filterM (title_matches lowerTerm) (deref w results) with
               | Throw e => Throw e
               | Normal l => Normal (Fresh l)
               end
           end
      else Normal results
  | None => Normal results
  end.

(** [allowedIds.has(c.id)] for [allowedIds = new Set(ids)] *)
Definition Set_has (ids : list value) (k : slot) : bool :=
  match k with
  | Some v => bool_decide (v ∈ ids)
  | None => false
  end.

(** Step 2: filter by folder. *)
Definition folder_filter (w : World) (folderId : slot) (results : results_ref)
  : results_ref :=
  if truthy folderId && negb (strict_eq folderId (Some (VStr "all")))
  then
    match find (λ f, strict_eq (folder_id f) folderId) (folders (localDB w)) with
    | Some folder =>
        let allowedIds := default [] (conversationIds folder) in
        Fresh (List.filter (λ c, Set_has allowedIds (field "id" c))
                           (deref w results))
    | None =>
        if strict_eq folderId (Some (VStr "trash"))
        then Fresh (List.filter (λ c, truthy (field "isTrashed" c))
                                (deref w results))
        else results
    end
  else results.

(** Step 3: [results.sort(...)] sorts the array that [results] denotes,
    in place. *)
Definition sort_in_place (w : World) (results : results_ref)
  : World * results_ref :=
  match results with
  | OfStore =>
      (set_localDB
         (set_conversations (sort by_time_desc (conversations (localDB w)))
                            (localDB w))
         w,
       OfStore)
  | Fresh l => (w, Fresh (sort by_time_desc l))
  end.

Definition getConversations : handler := fun w request =>
  let page := default 1%Z (Request.page request) in
  let limit := default 20%Z (Request.limit request) in
  let results := OfStore in
  match text_filter w (Request.searchTerm request) results with
  | Throw e => (w, Throw e)
  | Normal results =>
      let results := folder_filter w (Request.folderId request) results in
      let '(w, results) := sort_in_place w results in
      let total := length (deref w results) in
      let start := ((page - 1) * limit)%Z in
      let paginated := slice (deref w results) start (start + limit)%Z in
      (w, Normal (Page paginated total page limit))
  end.

(** *** Prompts *)

Definition getPrompts : handler := fun w _ =>
  (w, Normal (Prompts (prompts (localDB w)))).

(** The object stored at an address; a spread of [undefined] is [{}]. *)
Definition object_at (h : gmap loc obj) (p : loc) : obj := default ∅ (h !! p).

Definition savePrompt : handler := fun w request =>
  let prompt := Request.prompt request in
  (* const promptCopy = { ...prompt } : a new object *)
  let promptCopy : loc := fresh (dom (heap w)) in
  let copied : obj := from_option (object_at (heap w)) ∅ prompt in
  (* if (!promptCopy.id) promptCopy.id = crypto.randomUUID() *)
  let '(copied, n) :=
    if truthy (field "id" copied)
    then (copied, drawn w)
    else (<["id" := VStr (randomUUID (drawn w))]> copied, S (drawn w)) in
  let h := <[promptCopy := copied]> (heap w) in
  let ps := prompts (localDB w) in
  let index :=
    findIndex (λ p, strict_eq (field "id" (object_at h p)) (field "id" copied))
              ps in
  let ps' :=
    match index with
    | Some i => <[i := promptCopy]> ps
    | None => ps ++ [promptCopy]
    end in
  (saveDB (set_drawn n (set_heap h (set_localDB (set_prompts ps' (localDB w)) w))),
   Normal (Saved promptCopy)).

Definition deletePrompt : handler := fun w request =>
  let ps :=
    List.filter
      (λ p, negb (strict_eq (field "id" (object_at (heap w) p))
                            (Request.id request)))
      (prompts (localDB w)) in
  (saveDB (set_localDB (set_prompts ps (localDB w)) w), Normal Success).

(** ** Message router *)

(** What a property of the [Controller] object holds. *)
Inductive property : Type :=
| Method (f : handler)
| NotCallable.

(** The own properties of the [Controller] object literal. *)
Definition Controller_own : list (string * handler) :=
  [ ("checkHasSubscription", checkHasSubscription);
    ("registerUser", registerUser);
    ("addConversations", addConversations);
    ("getConversations", getConversations);
    ("getPrompts", getPrompts);
    ("savePrompt", savePrompt);
    ("deletePrompt", deletePrompt) ].

(** The properties every object literal inherits from [Object.prototype],
    and what each does when called as [Controller[name](request)] on a
    request that does not itself redefine [toString] or [valueOf]. *)
Definition Object_prototype : list (string * property) :=
  [ ("constructor", Method (λ w request, (w, Normal (Echo request))));
    ("toString", Method (λ w _, (w, Normal (Text "[object Object]"))));
    ("toLocaleString", Method (λ w _, (w, Normal (Text "[object Object]"))));
    ("valueOf", Method (λ w _, (w, Normal Self)));
    ("hasOwnProperty", Method (λ w _, (w, Normal (Flag false))));
    ("isPrototypeOf", Method (λ w _, (w, Normal (Flag false))));
    ("propertyIsEnumerable", Method (λ w _, (w, Normal (Flag false))));
    ("__defineGetter__",
      Method (λ w _,
        (w, Throw "Object.prototype.__defineGetter__: Expecting function")));
    ("__defineSetter__",
      Method (λ w _,
        (w, Throw "Object.prototype.__defineSetter__: Expecting function")));
    ("__lookupGetter__", Method (λ w _, (w, Normal Undefined)));
    ("__lookupSetter__", Method (λ w _, (w, Normal Undefined)));
    ("__proto__", NotCallable) ].

Fixpoint assoc {A : Type} (key : string) (table : list (string * A))
  : option A :=
  match table with
  | [] => None
  | (k, x) :: table' => if String.eqb k key then Some x else assoc key table'
  end.

(** [request.type || request.action] *)
Definition action_of (request : Request.t) : option string :=
  match Request.type request with
  | Some s => if truthy (Some (VStr s)) then Some s else Request.action request
  | None => Request.action request
  end.

(** The property key an action is converted to. *)
Definition property_key (action : option string) : string :=
  default "undefined" action.

(** [Controller[action]]: own properties first, then the prototype. *)
Definition Controller (action : option string) : option property :=
  match assoc (property_key action) Controller_own with
  | Some f => Some (Method f)
  | None => assoc (property_key action) Object_prototype
  end.

(** [Controller[action](request)] *)
Definition call (p : property) : handler := fun w request =>
  match p with
  | Method f => f w request
  | NotCallable => (w, Throw "Controller[action] is not a function")
  end.

Definition handleMessage (w : World) (request : Request.t) : World * Response :=
  let action := action_of request in
  match Controller action with
  | Some p =>
      match call p w request with
      | (w', Normal response) => (w', response)
      | (w', Throw message) => (w', Failure message)
      end
  | None =>
      if bool_decide (action = Some "ping")
      then (w, Status "ok")
      else (w, Failure "Unknown action")
  end.

Definition maxRetries : nat := 10.

(** The polling loop started for a request that arrives before the store
    is ready.  [worldAt i] is the state of the script [i] retry delays
    after the arrival; [retries] is the loop counter. *)
Fixpoint poll (worldAt : nat → World) (request : Request.t)
    (retries remaining : nat) : World * Response :=
  match remaining with
  | O => (worldAt retries, Failure "Database initialization timeout")
  | S remaining' =>
      if isDBReady (worldAt retries)
      then handleMessage (worldAt retries) request
      else poll worldAt request (S retries) remaining'
  end.

(** The [chrome.runtime.onMessage] listener: the state in which the
    response is sent, and the response. *)
Definition onMessage (worldAt : nat → World) (request : Request.t)
  : World * Response :=
  if negb (isDBReady (worldAt 0%nat))
  then poll worldAt request 0 maxRetries
  else handleMessage (worldAt 0%nat) request.

End Controllers.

(** ** The earlier revision of the script

    The source also carries the previous revision of the same file.  Two
    of its controllers differ from the current ones. *)

Module Legacy.
Section Legacy.
Context `{Host}.

(** Body of the [forEach] callback, on the pair of
    [localDB.conversations] and the [changed] flag. *)
Definition upsert (st : list obj * bool) (newC : obj) : list obj * bool :=
  let '(cs, _) := st in
  match findIndex (λ c, strict_eq (field "id" c) (field "id" newC)) cs with
  | Some index => (<[index := spread (cs !!! index) newC]> cs, true)
  | None => (cs ++ [newC], true)
  end.

Definition addConversations : handler := fun w request =>
  let newConvos := default [] (Request.conversations request) in
  let '(cs, changed) :=
    fold_left upsert newConvos (conversations (localDB w), false) in
  let w' := set_localDB (set_conversations cs (localDB w)) w in
  let w' := if changed then saveDB w' else w' in
  (w', Normal (Count (length (conversations (localDB w'))))).

(** This revision writes the identifier into the caller's object and
    stores that very object. *)
Definition savePrompt : handler := fun w request =>
  match Request.prompt request with
  | None =>
      (w, Throw "Cannot read properties of undefined (reading 'id')")
  | Some prompt =>
      let o := object_at (heap w) prompt in
      let '(o, n) :=
        if truthy (field "id" o)
        then (o, drawn w)
        else (<["id" := VStr (randomUUID (drawn w))]> o, S (drawn w)) in
      let h := <[prompt := o]> (heap w) in
      let ps := prompts (localDB w) in
      let index :=
        findIndex (λ p, strict_eq (field "id" (object_at h p)) (field "id" o))
                  ps in
      let ps' :=
        match index with
        | Some i => <[i := prompt]> ps
        | None => ps ++ [prompt]
        end in
      (saveDB (set_drawn n (set_heap h (set_localDB (set_prompts ps' (localDB w)) w))),
       Normal (Saved prompt))
  end.

End Legacy.
End Legacy.

(** ** A concrete runtime, to evaluate the controllers on examples *)

Definition ascii_lower (c : ascii) : ascii :=
  let n := nat_of_ascii c in
  if (65 <=? n)%nat && (n <=? 90)%nat then ascii_of_nat (n + 32) else c.

Fixpoint string_lower (s : string) : string :=
  match s with
  | EmptyString => EmptyString
  | String c s' => String (ascii_lower c) (string_lower s')
  end.

(** ASCII lower-casing, no date strings, and numbered identifiers. *)
Definition example_host : Host :=
  {| toLowerCase := string_lower;
     Date_parse := λ _, None;
     randomUUID := λ n, String.append "uuid-" (pretty n) |}.

(** ** Vocabulary of the specification *)

(** The identities held by a sequence of conversations. *)
Definition ids (cs : list obj) : list slot := field "id" <$> cs.

(** At most one conversation per [id]. *)
Definition unique_ids (cs : list obj) : Prop := NoDup (ids cs).

(** The first conversation with a given identity. *)
Definition by_id (k : slot) (cs : list obj) : option obj :=
  find (λ c, strict_eq (field "id" c) k) cs.

(** The map part of [upsert]. *)
Definition upsert_map (m : JSMap.t) (newC : obj) : JSMap.t :=
  (upsert (m, false) newC).1.

(** All the records of a batch that carry identity [k], merged in input
    order into [init]. *)
Definition merge_all (k : slot) (batch : list obj) (init : obj) : obj :=
  fold_left (λ acc n, if strict_eq (field "id" n) k then spread acc n else acc)
            batch init.

(** The lookup map once a batch has been merged into the conversations. *)
Definition merged_map (cs batch : list obj) : JSMap.t :=
  fold_left upsert_map batch (JSMap.of_entries (entries cs)).

(** Every entry of a map is filed under the identity of its value. *)
Definition keyed (m : JSMap.t) : Prop :=
  Forall (λ e, field "id" e.2 = e.1) m.

(** The conversations left in the state by a controller. *)
Definition conversations_after (r : World * completion Response) : list obj :=
  conversations (localDB r.1).

(** A request that carries a batch of conversations and nothing else. *)
Definition batch_request (batch : list obj) : Request.t :=
  {| Request.type := None; Request.action := Some "addConversations";
     Request.conversations := Some batch; Request.page := None;
     Request.limit := None; Request.searchTerm := None;
     Request.folderId := None; Request.prompt := None; Request.id := None |}.

(** The same request with the [folderId] field left out. *)
Definition without_folderId (request : Request.t) : Request.t :=
  {| Request.type := Request.type request;
     Request.action := Request.action request;
     Request.conversations := Request.conversations request;
     Request.page := Request.page request;
     Request.limit := Request.limit request;
     Request.searchTerm := Request.searchTerm request;
     Request.folderId := None;
     Request.prompt := Request.prompt request;
     Request.id := Request.id request |}.

(** A request that asks for the conversations of one folder. *)
Definition folder_request (folderId : value) : Request.t :=
  {| Request.type := None; Request.action := Some "getConversations";
     Request.conversations := None; Request.page := None;
     Request.limit := None; Request.searchTerm := None;
     Request.folderId := Some folderId; Request.prompt := None;
     Request.id := None |}.

(** A request that carries an action name and nothing else. *)
Definition action_request (action : string) : Request.t :=
  {| Request.type := None; Request.action := Some action;
     Request.conversations := None; Request.page := None;
     Request.limit := None; Request.searchTerm := None;
     Request.folderId := None; Request.prompt := None; Request.id := None |}.

(** The conversation is flagged as trashed. *)
Definition trashed (c : obj) : bool := truthy (field "isTrashed" c).

(** The folders collection has a folder with this identity. *)
Definition folder_exists (w : World) (folderId : slot) : Prop :=
  Exists (λ f, folder_id f = folderId) (folders (localDB w)).

(** A response that pages through [results]: the requested page of it,
    and its length as the total. *)
Definition pages_through (request : Request.t) (results : list obj)
    (r : completion Response) : Prop :=
  let page := default 1%Z (Request.page request) in
  let limit := default 20%Z (Request.limit request) in
  let start := ((page - 1) * limit)%Z in
  r = Normal (Page (slice results start (start + limit)%Z)
                   (length results) page limit).

(** The answer to the request pages through exactly the trashed
    conversations of the store, in some order. *)
Definition returns_trashed `{Host} (w : World) (request : Request.t) : Prop :=
  ∃ results,
    results ≡ₚ List.filter trashed (conversations (localDB w))
    ∧ pages_through request results (getConversations w request).2.

(** A state with the given conversations and folders and nothing else. *)
Definition world_with (cs : list obj) (fs : list Folder) : World :=
  {| localDB := {| conversations := cs; folders := fs; prompts := [];
                   settings := ∅; user := default_user; notes := [] |};
     isDBReady := true; saveTimeout := false; heap := ∅; drawn := 0 |}.

(** Every prompt of the store is an allocated object. *)
Definition prompts_allocated (w : World) : Prop :=
  Forall (λ p, is_Some (heap w !! p)) (prompts (localDB w)).

(** The object a [savePrompt] request hands over. *)
Definition input_prompt (w : World) (request : Request.t) : obj :=
  from_option (object_at (heap w)) ∅ (Request.prompt request).

(** A request to save the prompt object at an address. *)
Definition prompt_request (p : loc) : Request.t :=
  {| Request.type := None; Request.action := Some "savePrompt";
     Request.conversations := None; Request.page := None;
     Request.limit := None; Request.searchTerm := None;
     Request.folderId := None; Request.prompt := Some p; Request.id := None |}.

(** ** Sample data *)

Module Sample.

Definition chat_a : obj :=
  {[ "id" := VStr "a"; "title" := VStr "Alpha"; "update_time" := VNum 1 ]}.

Definition chat_b : obj :=
  {[ "id" := VStr "b"; "title" := VStr "Beta"; "update_time" := VNum 3;
     "isTrashed" := VBool true ]}.

Definition chat_c : obj :=
  {[ "id" := VStr "c"; "update_time" := VNum 2 ]}.

(** An update of [chat_b] and two records for a conversation not yet
    known. *)
Definition batch : list obj :=
  [ {[ "id" := VStr "b"; "title" := VStr "Beta, renamed" ]};
    {[ "id" := VStr "z"; "title" := VStr "Zeta" ]};
    {[ "id" := VStr "z"; "pinned" := VBool true ]} ].

Definition work_folder : Folder :=
  {| folder_id := Some (VStr "work");
     conversationIds := Some [VStr "a"; VStr "c"] |}.

(** A real folder whose identity is the trash sentinel. *)
Definition trash_folder : Folder :=
  {| folder_id := Some (VStr "trash"); conversationIds := Some [VStr "a"] |}.

Definition store : World := world_with [chat_a; chat_b; chat_c] [work_folder].

Definition store_with_trash_folder : World :=
  world_with [chat_a; chat_b; chat_c] [work_folder; trash_folder].

(** The store never becomes ready. *)
Definition never_ready : nat → World := λ _, initial_world.

(** The store becomes ready between the second and the third poll. *)
Definition ready_at_third_poll : nat → World :=
  λ i, if (i <? 3)%nat then initial_world else store.

(** A store with one saved prompt, and the caller's prompt object, which
    has no [id], at address [2]. *)
Definition prompt_world : World :=
  {| localDB := {| conversations := []; folders := []; prompts := [1%positive];
                   settings := ∅; user := default_user; notes := [] |};
     isDBReady := true; saveTimeout := false;
     heap := {[ 1%positive := {[ "id" := VStr "p1"; "text" := VStr "old" ]};
                2%positive := {[ "text" := VStr "new" ]} ]};
     drawn := 0 |}.

End Sample.

(** ** Vocabulary for the remaining operations *)

(** The same request for another page. *)
Definition paged (request : Request.t) (page limit : Z) : Request.t :=
  {| Request.type := Request.type request;
     Request.action := Request.action request;
     Request.conversations := Request.conversations request;
     Request.page := Some page;
     Request.limit := Some limit;
     Request.searchTerm := Request.searchTerm request;
     Request.folderId := Request.folderId request;
     Request.prompt := Request.prompt request;
     Request.id := Request.id request |}.

(** The array [results] of [getConversations] as it stands after the
    sort, before the page is cut out of it. *)
Definition selected `{Host} (w : World) (request : Request.t)
  : completion (list obj) :=
  match text_filter w (Request.searchTerm request) OfStore with
  | Throw e => Throw e
  | Normal results =>
      let results := folder_filter w (Request.folderId request) results in
      let '(w', results) := sort_in_place w results in
      Normal (deref w' results)
  end.

(** Non-increasing key. *)
Definition key_desc {A : Type} (key : A → Z) (a b : A) : Prop :=
  (key b ≤ key a)%Z.

(** The state once the store's own array has been sorted in place. *)
Definition sorted_store `{Host} (w : World) : World :=
  set_localDB
    (set_conversations (sort by_time_desc (conversations (localDB w)))
                       (localDB w))
    w.

(** The effective timestamp, the epoch standing in for an invalid one. *)
Definition effective_time `{Host} (c : obj) : Z := default 0%Z (time_of c).

(** The conversation has a valid effective timestamp. *)
Definition timed `{Host} (c : obj) : Prop := is_Some (time_of c).

(** [a] is at least as recent as [b]. *)
Definition not_older `{Host} (a b : obj) : Prop :=
  ∃ timeA timeB,
    time_of a = Some timeA ∧ time_of b = Some timeB ∧ (timeB ≤ timeA)%Z.

(** The title is a non-empty string whose lower-cased form contains the
    lower-cased search term. *)
Definition title_contains `{Host} (term : string) (c : obj) : Prop :=
  ∃ title, field "title" c = Some (VStr title)
           ∧ title ≠ ""
           ∧ includes (toLowerCase title) (toLowerCase term) = true.

(** The identities of the stored prompts, in order. *)
Definition prompt_ids (w : World) : list slot :=
  (λ p, field "id" (object_at (heap w) p)) <$> prompts (localDB w).

(** A request to delete the prompts with a given identity. *)
Definition delete_request (k : slot) : Request.t :=
  {| Request.type := None; Request.action := Some "deletePrompt";
     Request.conversations := None; Request.page := None;
     Request.limit := None; Request.searchTerm := None;
     Request.folderId := None; Request.prompt := None; Request.id := k |}.

(** A request that searches the conversations for a term. *)
Definition search_request (term : value) : Request.t :=
  {| Request.type := Some "getConversations"; Request.action := None;
     Request.conversations := None; Request.page := None;
     Request.limit := None; Request.searchTerm := Some term;
     Request.folderId := None; Request.prompt := None; Request.id := None |}.

(** The names under which [Controller] holds something: its seven own
    properties and the twelve it inherits. *)
Definition Controller_names `{Host} : list string :=
  Controller_own.*1 ++ Object_prototype.*1.

(** What no request changes: the folders, the settings, the user, the
    notes and the readiness flag stay as they are, a prompt object that
    exists keeps its fields, and the count of handed-out identifiers does
    not go down.  (The conversations and the prompts arrays are not part
    of it: they are what the controllers write.) *)
Definition preserved (w w' : World) : Prop :=
  folders (localDB w') = folders (localDB w)
  ∧ settings (localDB w') = settings (localDB w)
  ∧ user (localDB w') = user (localDB w)
  ∧ notes (localDB w') = notes (localDB w)
  ∧ isDBReady w' = isDBReady w
  ∧ (∀ p o, heap w !! p = Some o → heap w' !! p = Some o)
  ∧ (drawn w ≤ drawn w')%nat.

(** ** Start-up *)

(** What [chrome.storage.local.get(DB_KEY)] finds under the key: the blob
    of a saved [localDB], any of whose top-level fields may be missing. *)
Record Snapshot : Type := {
  snap_conversations : option (list obj);
  snap_folders : option (list Folder);
  snap_prompts : option (list obj);
  snap_settings : option obj;
  snap_user : option obj;
  snap_notes : option (list value)
}.

(** The objects of a loaded array, each placed at a new address. *)
Fixpoint allocate (h : gmap loc obj) (os : list obj)
  : gmap loc obj * list loc :=
  match os with
  | [] => (h, [])
  | o :: os' =>
      let p : loc := fresh (dom h) in
      let '(h', ps) := allocate (<[p := o]> h) os' in
      (h', p :: ps)
  end.

(** [localDB = { ...localDB, ...data[DB_KEY] }]: every top-level field of
    the blob replaces the field of the same name. *)
Definition hydrate (s : Snapshot) (w : World) : World :=
  let db := localDB w in
  let '(h, ps) :=
    match snap_prompts s with
    | Some os => allocate (heap w) os
    | None => (heap w, prompts db)
    end in
  {| localDB :=
       {| conversations := default (conversations db) (snap_conversations s);
          folders := default (folders db) (snap_folders s);
          prompts := ps;
          settings := default (settings db) (snap_settings s);
          user := default (user db) (snap_user s);
          notes := default (notes db) (snap_notes s) |};
     isDBReady := isDBReady w; saveTimeout := saveTimeout w;
     heap := h; drawn := drawn w |}.

Definition set_ready (w : World) : World :=
  {| localDB := localDB w; isDBReady := true; saveTimeout := saveTimeout w;
     heap := heap w; drawn := drawn w |}.

(** [initDB], from the point where the read of the storage has ended:
    with what is stored under the key, if anything, or with an error. *)
Definition initDB (loaded : completion (option Snapshot)) (w : World)
  : World :=
  match loaded with
  | Normal (Some s) => set_ready (hydrate s w)
  | Normal None => set_ready w
  | Throw _ => set_ready w
  end.

(** What the save callback writes under the key: the whole of
    [localDB]. *)
Definition snapshot_of (w : World) : Snapshot :=
  {| snap_conversations := Some (conversations (localDB w));
     snap_folders := Some (folders (localDB w));
     snap_prompts := Some (object_at (heap w) <$> prompts (localDB w));
     snap_settings := Some (settings (localDB w));
     snap_user := Some (user (localDB w));
     snap_notes := Some (notes (localDB w)) |}.

(** ** The debounced save, on a clock

    [saveDB] with its timer made explicit.  Time is counted in
    milliseconds; a timeout runs its callback when its delay has elapsed,
    unless it has been cleared before. *)

Module Debounce.

Definition DEBOUNCE_DELAY : nat := 500.

Record t : Type := {
  now : nat;
  (** when the pending timeout is due, if one is pending *)
  due : option nat;
  (** [localDB] *)
  db : Store;
  (** what has been written under [DB_KEY], oldest first *)
  written : list Store
}.

(** [if (saveTimeout) clearTimeout(saveTimeout);
     saveTimeout = setTimeout(..., DEBOUNCE_DELAY)] *)
Definition saveDB (s : t) : t :=
  {| now := now s; due := Some (now s + DEBOUNCE_DELAY)%nat; db := db s;
     written := written s |}.

(** A controller replaces [localDB] and calls [saveDB]. *)
Definition mutate (db' : Store) (s : t) : t :=
  saveDB {| now := now s; due := due s; db := db'; written := written s |}.

(** Time passes; a timeout that falls due writes [localDB] as it is
    then. *)
Definition elapse (ms : nat) (s : t) : t :=
  match due s with
  | Some d =>
      if (d <=? now s + ms)%nat
      then {| now := (now s + ms)%nat; due := None; db := db s;
              written := written s ++ [db s] |}
      else {| now := (now s + ms)%nat; due := Some d; db := db s;
              written := written s |}
  | None =>
      {| now := (now s + ms)%nat; due := None; db := db s;
         written := written s |}
  end.

(** A burst: mutations, each followed by a pause. *)
Definition burst (steps : list (Store * nat)) (s : t) : t :=
  fold_left (λ s step, elapse step.2 (mutate step.1 s)) steps s.

End Debounce.

(** * Properties *)

(** ** Facts about [Map] *)

Section MapFacts.
Implicit Types (k : slot) (v : obj) (m : JSMap.t).

Lemma strict_eq_true (a b : slot) : strict_eq a b = true ↔ a = b.
Proof. unfold strict_eq. apply bool_decide_eq_true. Qed.

Lemma strict_eq_false (a b : slot) : strict_eq a b = false ↔ a ≠ b.
Proof. unfold strict_eq. apply bool_decide_eq_false. Qed.

Lemma strict_eq_refl (a : slot) : strict_eq a a = true.
Proof. by apply strict_eq_true. Qed.

Lemma get_None k m : JSMap.get k m = None ↔ k ∉ JSMap.keys m.
Proof.
  induction m as [|[k' v'] m IH]; simpl.
  - split; [intros _; apply not_elem_of_nil | done].
  - destruct (strict_eq k' k) eqn:E.
    + apply strict_eq_true in E as ->. split; [done|].
      intros []. apply elem_of_cons. by left.
    + apply strict_eq_false in E. rewrite IH, not_elem_of_cons.
      split; [intros ?; split; [congruence | done] | by intros [_ ?]].
Qed.

Lemma get_is_Some k m : is_Some (JSMap.get k m) ↔ k ∈ JSMap.keys m.
Proof.
  rewrite <- not_eq_None_Some, get_None.
  split; [apply dec_stable | by intros ? ?].
Qed.

Lemma get_set_eq k v m : JSMap.get k (JSMap.set k v m) = Some v.
Proof.
  induction m as [|[k' v'] m IH]; simpl.
  - by rewrite strict_eq_refl.
  - destruct (strict_eq k' k) eqn:E; simpl; by rewrite E.
Qed.

Lemma get_set_ne k k' v m :
  k ≠ k' → JSMap.get k' (JSMap.set k v m) = JSMap.get k' m.
Proof.
  intros Hne. induction m as [|[k0 v0] m IH]; simpl.
  - by apply strict_eq_false in Hne as ->.
  - destruct (strict_eq k0 k) eqn:E; simpl; [|by rewrite IH].
    apply strict_eq_true in E as ->. by apply strict_eq_false in Hne as ->.
Qed.

Lemma set_absent k v m :
  JSMap.get k m = None → JSMap.set k v m = m ++ [(k, v)].
Proof.
  induction m as [|[k' v'] m IH]; simpl; [done|].
  destruct (strict_eq k' k); [done|]. intros E. by rewrite IH.
Qed.

Lemma keys_set_present k v m :
  is_Some (JSMap.get k m) → JSMap.keys (JSMap.set k v m) = JSMap.keys m.
Proof.
  induction m as [|[k' v'] m IH]; simpl.
  - by intros [? ?].
  - destruct (strict_eq k' k); [done|].
    intros E. unfold JSMap.keys in *. simpl. f_equal. by apply IH.
Qed.

Lemma keys_set k v m :
  JSMap.keys (JSMap.set k v m)
  = match JSMap.get k m with
    | Some _ => JSMap.keys m
    | None => JSMap.keys m ++ [k]
    end.
Proof.
  destruct (JSMap.get k m) eqn:E.
  - by apply keys_set_present.
  - rewrite set_absent by done. unfold JSMap.keys. by rewrite fmap_app.
Qed.

Lemma NoDup_keys_set k v m :
  NoDup (JSMap.keys m) → NoDup (JSMap.keys (JSMap.set k v m)).
Proof.
  intros Hm. rewrite keys_set. destruct (JSMap.get k m) eqn:E; [done|].
  apply NoDup_app. split_and!; [done | | apply NoDup_singleton].
  intros x Hx ->%list_elem_of_singleton. by apply get_None in E.
Qed.

(** Two maps without repeated keys are equal when they list the same keys
    in the same order and agree on every lookup. *)
Lemma map_ext m1 m2 :
  NoDup (JSMap.keys m1) →
  JSMap.keys m1 = JSMap.keys m2 →
  (∀ k, JSMap.get k m1 = JSMap.get k m2) →
  m1 = m2.
Proof.
  revert m2. induction m1 as [|[k v] m1 IH]; intros [|[k2 v2] m2]; simpl;
    try done.
  intros [Hk Hnd]%NoDup_cons [= <- Hkeys] Hget.
  pose proof (Hget k) as Hv. simpl in Hv. rewrite strict_eq_refl in Hv.
  injection Hv as <-. f_equal. apply IH; [done..|].
  intros k'. destruct (decide (k = k')) as [<-|Hne].
  - assert (JSMap.get k m1 = None) as -> by by apply get_None.
    symmetry. apply get_None. unfold JSMap.keys in *. by rewrite <- Hkeys.
  - specialize (Hget k'). simpl in Hget.
    by apply strict_eq_false in Hne as Hne'; rewrite Hne' in Hget.
Qed.

Lemma of_entries_acc (es acc : list (slot * obj)) :
  NoDup ((acc ++ es).*1) →
  fold_left (λ m e, JSMap.set e.1 e.2 m) es acc = acc ++ es.
Proof.
  revert acc. induction es as [|[k v] es IH]; intros acc Hnd; simpl.
  - by rewrite app_nil_r.
  - rewrite set_absent.
    + rewrite IH; rewrite <- app_assoc; done.
    + apply get_None. rewrite fmap_app in Hnd. simpl in Hnd.
      apply NoDup_app in Hnd as (_ & Hdis & _). intros Hin.
      apply (Hdis k Hin). by left.
Qed.

(** Building a map from entries without repeated keys keeps them as they
    are. *)
Lemma of_entries_NoDup (es : list (slot * obj)) :
  NoDup es.*1 → JSMap.of_entries es = es.
Proof. intros Hnd. unfold JSMap.of_entries. by rewrite of_entries_acc. Qed.

Lemma NoDup_fold_set (es acc : list (slot * obj)) :
  NoDup (JSMap.keys acc) →
  NoDup (JSMap.keys (fold_left (λ m e, JSMap.set e.1 e.2 m) es acc)).
Proof.
  revert acc. induction es as [|e es IH]; intros acc Hnd; simpl; [done|].
  by apply IH, NoDup_keys_set.
Qed.

Lemma NoDup_keys_of_entries (es : list (slot * obj)) :
  NoDup (JSMap.keys (JSMap.of_entries es)).
Proof. apply NoDup_fold_set. constructor. Qed.

End MapFacts.

(** ** Facts about the merge loop *)

Section MergeFacts.
Implicit Types (k : slot) (n c : obj) (m : JSMap.t) (batch cs : list obj).

Lemma spread_empty n : spread ∅ n = n.
Proof. unfold spread. apply (right_id_L ∅ (∪)). Qed.

(** A field of a spread comes from the second object when it has it. *)
Lemma lookup_spread (a b : obj) (f : string) :
  spread a b !! f = match b !! f with Some x => Some x | None => a !! f end.
Proof.
  unfold spread. rewrite lookup_union.
  destruct (b !! f), (a !! f); done.
Qed.

Lemma upsert_map_eq m n :
  upsert_map m n
  = JSMap.set (field "id" n)
              (spread (default ∅ (JSMap.get (field "id" n) m)) n) m.
Proof.
  unfold upsert_map, upsert.
  destruct (JSMap.get (field "id" n) m); simpl; [done|].
  by rewrite spread_empty.
Qed.

Lemma upsert_pair m (b : bool) n : upsert (m, b) n = (upsert_map m n, true).
Proof.
  unfold upsert_map, upsert. by destruct (JSMap.get (field "id" n) m).
Qed.

(** The loop threads the map through [upsert_map] and raises [changed] as
    soon as the batch has a record. *)
Lemma fold_upsert batch m (b : bool) :
  fold_left upsert batch (m, b)
  = (fold_left upsert_map batch m, b || bool_decide (batch ≠ [])).
Proof.
  revert m b. induction batch as [|n batch IH]; intros m b; cbn [fold_left].
  - by rewrite orb_false_r.
  - rewrite upsert_pair, IH. cbn [orb]. by rewrite orb_true_r.
Qed.

Lemma get_upsert_eq m n :
  JSMap.get (field "id" n) (upsert_map m n)
  = Some (spread (default ∅ (JSMap.get (field "id" n) m)) n).
Proof. by rewrite upsert_map_eq, get_set_eq. Qed.

Lemma get_upsert_ne k m n :
  field "id" n ≠ k → JSMap.get k (upsert_map m n) = JSMap.get k m.
Proof. intros. by rewrite upsert_map_eq, get_set_ne. Qed.

Lemma NoDup_keys_upsert m n :
  NoDup (JSMap.keys m) → NoDup (JSMap.keys (upsert_map m n)).
Proof. rewrite upsert_map_eq. apply NoDup_keys_set. Qed.

Lemma NoDup_keys_fold batch m :
  NoDup (JSMap.keys m) → NoDup (JSMap.keys (fold_left upsert_map batch m)).
Proof.
  revert m. induction batch as [|n batch IH]; intros m Hm; simpl; [done|].
  by apply IH, NoDup_keys_upsert.
Qed.

Lemma keys_upsert_present m n :
  field "id" n ∈ JSMap.keys m → JSMap.keys (upsert_map m n) = JSMap.keys m.
Proof.
  intros Hin. rewrite upsert_map_eq. by apply keys_set_present, get_is_Some.
Qed.

Lemma keys_upsert_mono k m n :
  k ∈ JSMap.keys m → k ∈ JSMap.keys (upsert_map m n).
Proof.
  intros Hin. rewrite upsert_map_eq, keys_set.
  destruct (JSMap.get _ m); [done|]. apply elem_of_app. by left.
Qed.

Lemma keys_upsert_self m n : field "id" n ∈ JSMap.keys (upsert_map m n).
Proof. apply get_is_Some. rewrite get_upsert_eq. by eexists. Qed.

Lemma keys_fold_mono k batch m :
  k ∈ JSMap.keys m → k ∈ JSMap.keys (fold_left upsert_map batch m).
Proof.
  revert m. induction batch as [|n batch IH]; intros m Hm; simpl; [done|].
  by apply IH, keys_upsert_mono.
Qed.

(** After the loop every identity of the batch is a key of the map. *)
Lemma keys_fold_batch k batch m :
  k ∈ ids batch → k ∈ JSMap.keys (fold_left upsert_map batch m).
Proof.
  revert m. induction batch as [|n batch IH]; intros m; simpl.
  - by intros ?%elem_of_nil.
  - intros [->|Hin]%elem_of_cons; [|by apply IH].
    apply keys_fold_mono, keys_upsert_self.
Qed.

(** A batch whose identities are all known leaves the keys as they are. *)
Lemma keys_fold_known batch m :
  (∀ k, k ∈ ids batch → k ∈ JSMap.keys m) →
  JSMap.keys (fold_left upsert_map batch m) = JSMap.keys m.
Proof.
  revert m. induction batch as [|n batch IH]; intros m Hk; simpl; [done|].
  rewrite IH.
  - apply keys_upsert_present, Hk. by left.
  - intros k Hin. apply keys_upsert_mono, Hk. by right.
Qed.

Lemma merge_all_cons k n batch (x : obj) :
  merge_all k (n :: batch) x
  = merge_all k batch (if strict_eq (field "id" n) k then spread x n else x).
Proof. done. Qed.

Lemma merge_all_other k batch (x : obj) :
  k ∉ ids batch → merge_all k batch x = x.
Proof.
  revert x. induction batch as [|n batch IH]; intros x Hk; simpl; [done|].
  apply not_elem_of_cons in Hk as [Hne Hk].
  unfold merge_all in *. simpl.
  assert (strict_eq (field "id" n) k = false) as ->
    by (apply strict_eq_false; congruence).
  by apply IH.
Qed.

(** Merging a batch into [x] is merging it into the empty object and
    laying the result over [x]. *)
Lemma merge_all_union k batch (x : obj) :
  merge_all k batch x = merge_all k batch ∅ ∪ x.
Proof.
  unfold merge_all. revert x.
  induction batch as [|n batch IH]; intros x; simpl.
  - by rewrite (left_id_L ∅ (∪)).
  - destruct (strict_eq (field "id" n) k); [|apply IH].
    rewrite IH, (IH (spread ∅ n)). unfold spread.
    by rewrite (right_id_L ∅ (∪)), (assoc_L (∪)).
Qed.

Lemma merge_all_idemp k batch (x : obj) :
  merge_all k batch (merge_all k batch x) = merge_all k batch x.
Proof.
  rewrite (merge_all_union k batch (merge_all k batch x)).
  rewrite (merge_all_union k batch x).
  by rewrite (assoc_L (∪)), (idemp_L (∪)).
Qed.

(** What the map holds for an identity once the batch is processed. *)
Lemma get_fold k batch m :
  JSMap.get k (fold_left upsert_map batch m)
  = if bool_decide (k ∈ ids batch)
    then Some (merge_all k batch (default ∅ (JSMap.get k m)))
    else JSMap.get k m.
Proof.
  revert m. induction batch as [|n batch IH]; intros m; [done|].
  cbn [fold_left]. rewrite IH, merge_all_cons.
  change (ids (n :: batch)) with (field "id" n :: ids batch).
  destruct (decide (field "id" n = k)) as [<-|Hne].
  - rewrite strict_eq_refl, get_upsert_eq. cbn [default].
    rewrite (bool_decide_eq_true_2 (_ ∈ _ :: _)) by by left.
    case_bool_decide as Hin; [done|]. by rewrite merge_all_other.
  - rewrite get_upsert_ne by done.
    apply strict_eq_false in Hne as Hne'. rewrite Hne'.
    rewrite (bool_decide_ext (k ∈ field "id" n :: ids batch) (k ∈ ids batch));
      [done|].
    rewrite elem_of_cons. split; [intros [?|?]; [congruence | done] | by right].
Qed.

(** Running the loop a second time over the same batch changes nothing. *)
Lemma fold_upsert_idemp batch m :
  NoDup (JSMap.keys m) →
  fold_left upsert_map batch (fold_left upsert_map batch m)
  = fold_left upsert_map batch m.
Proof.
  intros Hm. apply map_ext.
  - by do 2 apply NoDup_keys_fold.
  - apply keys_fold_known. intros k. apply keys_fold_batch.
  - intros k. rewrite (get_fold k batch (fold_left _ _ _)).
    case_bool_decide as Hin; [|done].
    rewrite get_fold, bool_decide_eq_true_2 by done. simpl.
    by rewrite merge_all_idemp.
Qed.

End MergeFacts.

(** ** The conversations array and its lookup map *)

Section EntriesFacts.
Implicit Types (k : slot) (n c v : obj) (m : JSMap.t) (batch cs : list obj).

Lemma values_entries cs : JSMap.values (entries cs) = cs.
Proof.
  unfold JSMap.values, entries. rewrite <- list_fmap_compose.
  by rewrite list_fmap_id.
Qed.

Lemma keys_entries cs : JSMap.keys (entries cs) = ids cs.
Proof. unfold JSMap.keys, entries, ids. by rewrite <- list_fmap_compose. Qed.

Lemma entries_app cs1 cs2 : entries (cs1 ++ cs2) = entries cs1 ++ entries cs2.
Proof. apply fmap_app. Qed.

Lemma keyed_entries cs : keyed (entries cs).
Proof. apply Forall_fmap, Forall_forall. by intros c _. Qed.

Lemma entries_values m : keyed m → entries (JSMap.values m) = m.
Proof.
  unfold keyed. induction 1 as [|[k v] m Hk _ IH]; [done|].
  simpl in *. unfold JSMap.values, entries in *. simpl. by rewrite Hk, IH.
Qed.

Lemma ids_values m : keyed m → ids (JSMap.values m) = JSMap.keys m.
Proof. intros Hm. by rewrite <- keys_entries, entries_values. Qed.

Lemma keyed_get k m v : keyed m → JSMap.get k m = Some v → field "id" v = k.
Proof.
  unfold keyed. induction 1 as [|[k' v'] m Hk _ IH]; simpl; [done|].
  destruct (strict_eq k' k) eqn:E; [|done].
  apply strict_eq_true in E as ->. simpl in Hk. congruence.
Qed.

Lemma keyed_set k v m : keyed m → field "id" v = k → keyed (JSMap.set k v m).
Proof.
  unfold keyed. intros Hm Hv. induction Hm as [|[k' v'] m Hk Hm IH]; simpl.
  - by repeat constructor.
  - destruct (strict_eq k' k) eqn:E; constructor; try done.
    apply strict_eq_true in E as ->. done.
Qed.

Lemma keyed_of_entries (es : list (slot * obj)) :
  keyed es → keyed (JSMap.of_entries es).
Proof.
  unfold JSMap.of_entries. assert (keyed []) as Hacc by constructor.
  revert Hacc. generalize (@nil (slot * obj)) as acc.
  induction es as [|[k v] es IH]; intros acc Hacc Hes; simpl; [done|].
  apply Forall_cons in Hes as [Hk Hes].
  apply IH; [|done]. by apply keyed_set.
Qed.

(** A merged record keeps the identity it is filed under. *)
Lemma spread_id (existing n : obj) :
  field "id" existing = field "id" n →
  field "id" (spread existing n) = field "id" n.
Proof.
  unfold field. intros E. rewrite lookup_spread.
  destruct (n !! "id"); [done | by rewrite E].
Qed.

Lemma keyed_upsert m n : keyed m → keyed (upsert_map m n).
Proof.
  intros Hm. rewrite upsert_map_eq. apply keyed_set; [done|].
  destruct (JSMap.get (field "id" n) m) as [existing|] eqn:E; simpl.
  - apply spread_id. by eapply keyed_get.
  - by rewrite spread_empty.
Qed.

Lemma keyed_fold batch m : keyed m → keyed (fold_left upsert_map batch m).
Proof.
  revert m. induction batch as [|n batch IH]; intros m Hm; simpl; [done|].
  by apply IH, keyed_upsert.
Qed.

(** Reading the conversations back into a map reproduces the map they
    were written from. *)
Lemma of_entries_values m :
  keyed m → NoDup (JSMap.keys m) →
  JSMap.of_entries (entries (JSMap.values m)) = m.
Proof. intros Hk Hnd. rewrite entries_values by done. by apply of_entries_NoDup. Qed.

Lemma get_entries k cs : JSMap.get k (entries cs) = by_id k cs.
Proof.
  unfold by_id. induction cs as [|c cs IH]; simpl; [done|].
  by destruct (strict_eq (field "id" c) k).
Qed.

Lemma by_id_values k m : keyed m → by_id k (JSMap.values m) = JSMap.get k m.
Proof. intros Hm. by rewrite <- get_entries, entries_values. Qed.

Lemma by_id_Some k cs c :
  by_id k cs = Some c → c ∈ cs ∧ field "id" c = k.
Proof.
  unfold by_id. induction cs as [|c' cs IH]; simpl; [done|].
  destruct (strict_eq (field "id" c') k) eqn:E.
  - intros [= ->]. apply strict_eq_true in E. split; [by left | done].
  - intros [? ?]%IH. split; [by right | done].
Qed.

Lemma by_id_None k cs : by_id k cs = None ↔ k ∉ ids cs.
Proof. by rewrite <- get_entries, get_None, keys_entries. Qed.

Lemma keyed_merged cs batch : keyed (merged_map cs batch).
Proof. apply keyed_fold, keyed_of_entries, keyed_entries. Qed.

Lemma NoDup_merged cs batch : NoDup (JSMap.keys (merged_map cs batch)).
Proof. apply NoDup_keys_fold, NoDup_keys_of_entries. Qed.

(** [addConversations], with its loop summarised. *)
Lemma addConversations_unfold w request :
  addConversations w request
  = let batch := default [] (Request.conversations request) in
    let w' :=
      if bool_decide (batch ≠ [])
      then saveDB (set_localDB
                     (set_conversations
                        (JSMap.values
                           (merged_map (conversations (localDB w)) batch))
                        (localDB w))
                     w)
      else w in
    (w', Normal (Count (length (conversations (localDB w'))))).
Proof. unfold addConversations. by rewrite fold_upsert. Qed.

Lemma conversations_after_add w request :
  conversations_after (addConversations w request)
  = match default [] (Request.conversations request) with
    | [] => conversations (localDB w)
    | batch => JSMap.values (merged_map (conversations (localDB w)) batch)
    end.
Proof.
  rewrite addConversations_unfold. unfold conversations_after.
  by destruct (default [] (Request.conversations request)).
Qed.

End EntriesFacts.

(** ** The merge engine *)

Section MergeEngine.
Implicit Types (w : World) (request : Request.t) (batch cs : list obj).

Lemma merged_map_again cs batch :
  merged_map (JSMap.values (merged_map cs batch)) batch = merged_map cs batch.
Proof.
  unfold merged_map at 1.
  rewrite of_entries_values by (apply keyed_merged || apply NoDup_merged).
  apply fold_upsert_idemp, NoDup_keys_of_entries.
Qed.

(** C4. [addConversations] is idempotent: merging a batch into the state
    that the same batch has just been merged into leaves the conversations
    collection exactly as the first merge left it, record by record and
    in the same order. *)
Theorem addConversations_idempotent w request :
  conversations_after (addConversations (addConversations w request).1 request)
  = conversations_after (addConversations w request).
Proof.
  rewrite (conversations_after_add (addConversations w request).1).
  fold (conversations_after (addConversations w request)).
  rewrite conversations_after_add.
  destruct (default [] (Request.conversations request)) as [|n batch]; [done|].
  by rewrite merged_map_again.
Qed.

(** C7. The invariant of at most one conversation per [id] is preserved
    by [addConversations], whatever the batch. *)
Theorem addConversations_unique_ids w request :
  unique_ids (conversations (localDB w)) →
  unique_ids (conversations_after (addConversations w request)).
Proof.
  intros Hw. rewrite conversations_after_add.
  destruct (default [] (Request.conversations request)) as [|n batch]; [done|].
  unfold unique_ids. rewrite ids_values by apply keyed_merged.
  apply NoDup_merged.
Qed.

End MergeEngine.

(** ** The earlier merge loop against the current one *)

Section LegacyMerge.
Implicit Types (k : slot) (n c v : obj) (batch cs : list obj).

Lemma findIndex_id_None k cs :
  findIndex (λ c, strict_eq (field "id" c) k) cs = None →
  JSMap.get k (entries cs) = None.
Proof.
  induction cs as [|c cs IH]; simpl; [done|].
  destruct (strict_eq (field "id" c) k); [done|].
  destruct (findIndex _ cs); [done | auto].
Qed.

Lemma findIndex_id_Some k cs (i : nat) :
  findIndex (λ c, strict_eq (field "id" c) k) cs = Some i →
  ∃ c, cs !! i = Some c
       ∧ JSMap.get k (entries cs) = Some c
       ∧ ∀ v, field "id" v = k →
              JSMap.set k v (entries cs) = entries (<[i := v]> cs).
Proof.
  revert i. induction cs as [|c cs IH]; intros i; simpl; [done|].
  destruct (strict_eq (field "id" c) k) eqn:E.
  - intros [= <-]. exists c. split_and!; [done..|].
    intros v Hv. simpl. apply strict_eq_true in E. unfold entries. simpl.
    by rewrite Hv, E.
  - destruct (findIndex _ cs) as [j|] eqn:Ej; [|done].
    intros [= <-]. destruct (IH j eq_refl) as (c' & Hc' & Hget & Hset).
    exists c'. split_and!; [done..|].
    intros v Hv. simpl. unfold entries in *. simpl. by rewrite <- Hset.
Qed.

(** One round of the earlier loop does to the array what one round of the
    current loop does to the map of its entries. *)
Lemma legacy_upsert_entries cs (b : bool) n :
  Legacy.upsert (cs, b) n
  = ((Legacy.upsert (cs, b) n).1, true)
  ∧ entries (Legacy.upsert (cs, b) n).1 = upsert_map (entries cs) n.
Proof.
  unfold Legacy.upsert. rewrite upsert_map_eq.
  destruct (findIndex _ cs) as [i|] eqn:E; simpl.
  - split; [done|].
    destruct (findIndex_id_Some _ _ _ E) as (c & Hc & Hget & Hset).
    rewrite (list_lookup_total_correct _ _ _ Hc), Hget. simpl.
    symmetry. apply Hset, spread_id.
    eapply keyed_get; [apply keyed_entries | done].
  - split; [done|].
    apply findIndex_id_None in E. rewrite E. simpl.
    rewrite spread_empty, set_absent by done.
    by rewrite entries_app.
Qed.

Lemma legacy_fold_entries batch cs (b : bool) :
  entries (fold_left Legacy.upsert batch (cs, b)).1
  = fold_left upsert_map batch (entries cs)
  ∧ (fold_left Legacy.upsert batch (cs, b)).2 = b || bool_decide (batch ≠ []).
Proof.
  revert cs b. induction batch as [|n batch IH]; intros cs b; cbn [fold_left].
  - simpl. by rewrite orb_false_r.
  - destruct (legacy_upsert_entries cs b n) as [-> <-].
    destruct (IH (Legacy.upsert (cs, b) n).1 true) as [-> ->].
    split; [done|]. cbn [orb]. by rewrite orb_true_r.
Qed.

Lemma of_entries_unique cs :
  unique_ids cs → JSMap.of_entries (entries cs) = entries cs.
Proof.
  intros Hcs. apply of_entries_NoDup. fold (JSMap.keys (entries cs)).
  by rewrite keys_entries.
Qed.

Lemma set_conversations_same (w : World) :
  set_localDB (set_conversations (conversations (localDB w)) (localDB w)) w = w.
Proof. by destruct w as [[] ? ? ? ?]. Qed.

(** C10. On a store that holds at most one conversation per [id], the
    [findIndex]-based [addConversations] of the earlier revision and the
    [Map]-based one of the current revision agree on every batch: they
    leave the same state, hence the same conversations in the same order,
    and they return the same count. *)
Theorem addConversations_legacy_equiv (w : World) (request : Request.t) :
  unique_ids (conversations (localDB w)) →
  Legacy.addConversations w request = addConversations w request.
Proof.
  intros Hw. rewrite addConversations_unfold.
  unfold Legacy.addConversations. cbv zeta.
  set (batch := default [] (Request.conversations request)).
  destruct (legacy_fold_entries batch (conversations (localDB w)) false)
    as [Hcs Hch].
  destruct (fold_left Legacy.upsert batch _) as [cs changed].
  simpl in Hcs, Hch. subst changed.
  assert (cs = JSMap.values (merged_map (conversations (localDB w)) batch))
    as ->.
  { unfold merged_map. rewrite of_entries_unique by done.
    by rewrite <- Hcs, values_entries. }
  case_bool_decide as Hb; [done|].
  rewrite Hb. unfold merged_map. simpl.
  rewrite of_entries_unique by done.
  by rewrite values_entries, set_conversations_same.
Qed.

End LegacyMerge.

(** ** What a merge does to each record *)

Section MergePrecedence.
Implicit Types (k : slot) (n c v : obj) (batch cs : list obj) (w : World).

Lemma get_fold_set_inv k v (es acc : list (slot * obj)) :
  JSMap.get k (fold_left (λ m e, JSMap.set e.1 e.2 m) es acc) = Some v →
  (k, v) ∈ es ∨ JSMap.get k acc = Some v.
Proof.
  revert acc. induction es as [|[k1 v1] es IH]; intros acc; simpl; [auto|].
  intros [Hin|Hget]%IH; [left; by right|].
  destruct (decide (k1 = k)) as [->|Hne].
  - rewrite get_set_eq in Hget. injection Hget as ->. left. by left.
  - rewrite get_set_ne in Hget by done. by right.
Qed.

Lemma keys_fold_set k (es acc : list (slot * obj)) :
  k ∈ es.*1 ∨ k ∈ JSMap.keys acc →
  k ∈ JSMap.keys (fold_left (λ m e, JSMap.set e.1 e.2 m) es acc).
Proof.
  revert acc. induction es as [|[k1 v1] es IH]; intros acc; simpl.
  - by intros [?%elem_of_nil|?].
  - intros Hk. apply IH. rewrite keys_set.
    destruct Hk as [[->|Hk]%elem_of_cons|Hk]; [|by left|].
    + right. destruct (JSMap.get k1 acc) eqn:E.
      * apply get_is_Some. by eexists.
      * apply elem_of_app. right. by left.
    + right. destruct (JSMap.get k1 acc); [done|]. apply elem_of_app. by left.
Qed.

(** The lookup map finds, under an identity the store knows, one of the
    stored conversations with that identity. *)
Lemma get_of_entries_known k cs :
  k ∈ ids cs →
  ∃ existing, JSMap.get k (JSMap.of_entries (entries cs)) = Some existing
              ∧ existing ∈ cs ∧ field "id" existing = k.
Proof.
  intros Hk.
  assert (is_Some (JSMap.get k (JSMap.of_entries (entries cs)))) as [c Hc].
  { apply get_is_Some, keys_fold_set. left.
    fold (JSMap.keys (entries cs)). by rewrite keys_entries. }
  exists c. split; [done|].
  apply get_fold_set_inv in Hc as [Hin|?]; [|done].
  apply list_elem_of_fmap in Hin as (c' & [= Hid ->] & Hin). done.
Qed.

Lemma get_of_entries_unknown k cs :
  k ∉ ids cs → JSMap.get k (JSMap.of_entries (entries cs)) = None.
Proof.
  intros Hk. apply eq_None_not_Some. intros [c Hc]. apply Hk.
  apply get_fold_set_inv in Hc as [Hin|?]; [|done].
  apply list_elem_of_fmap in Hin as (c' & [= -> ->] & Hin).
  apply list_elem_of_fmap. by exists c'.
Qed.

Lemma by_id_after_add w batch k :
  batch ≠ [] →
  by_id k (conversations_after (addConversations w (batch_request batch)))
  = JSMap.get k (merged_map (conversations (localDB w)) batch).
Proof.
  intros Hb. rewrite conversations_after_add. simpl.
  destruct batch; [done|]. apply by_id_values, keyed_merged.
Qed.

Lemma merge_all_app k batch1 batch2 (x : obj) :
  merge_all k (batch1 ++ batch2) x = merge_all k batch2 (merge_all k batch1 x).
Proof. apply fold_left_app. Qed.

(** A batch is processed in input order: merging [batch1 ++ batch2] is
    merging [batch1] and then [batch2]. *)
Lemma addConversations_app w batch1 batch2 :
  conversations_after (addConversations w (batch_request (batch1 ++ batch2)))
  = conversations_after
      (addConversations (addConversations w (batch_request batch1)).1
                        (batch_request batch2)).
Proof.
  rewrite (conversations_after_add (addConversations _ _).1).
  fold (conversations_after (addConversations w (batch_request batch1))).
  rewrite !conversations_after_add. simpl.
  destruct batch1 as [|n1 batch1]; [done|].
  destruct batch2 as [|n2 batch2]; [by rewrite app_nil_r|].
  change ((n1 :: batch1) ++ n2 :: batch2)
    with (n1 :: (batch1 ++ n2 :: batch2)).
  cbv iota beta. f_equal. unfold merged_map at 2.
  rewrite of_entries_values by (apply keyed_merged || apply NoDup_merged).
  unfold merged_map. by rewrite <- fold_left_app.
Qed.

(** C5. How [addConversations] treats each incoming record.
    - The batch is processed in input order: merging [batch1 ++ batch2] is
      merging [batch1], then [batch2].
    - A record whose [id] the store already holds replaces the stored
      conversation by the shallow merge of the two: every field of the
      incoming record is taken from it, every other field from the stored
      conversation.
    - A record whose [id] the store does not hold is inserted as it is, at
      the end.
    - When a batch has several records with one [id], the final
      conversation is the last of them laid over what the earlier ones
      produced, so the last one wins on every field it carries.
    - A stored [{id:1, title:"A", x:1}] merged with an incoming
      [{id:1, title:"B"}] gives [{id:1, title:"B", x:1}]. *)
Theorem addConversations_precedence w :
  let after batch :=
    conversations_after (addConversations w (batch_request batch)) in
  let cs := conversations (localDB w) in
  (∀ batch1 batch2,
      after (batch1 ++ batch2)
      = conversations_after
          (addConversations (addConversations w (batch_request batch1)).1
                            (batch_request batch2)))
  ∧ (∀ n, field "id" n ∈ ids cs →
          ∃ existing,
            existing ∈ cs ∧ field "id" existing = field "id" n
            ∧ by_id (field "id" n) (after [n]) = Some (spread existing n)
            ∧ ∀ f, spread existing n !! f
                   = match n !! f with
                     | Some x => Some x
                     | None => existing !! f
                     end)
  ∧ (∀ n, field "id" n ∉ ids cs →
          by_id (field "id" n) (after [n]) = Some n ∧ last (after [n]) = Some n)
  ∧ (∀ batch1 n batch2,
        field "id" n ∉ ids batch2 →
        ∃ earlier,
          by_id (field "id" n) (after (batch1 ++ n :: batch2))
          = Some (spread earlier n)
          ∧ ∀ f x, n !! f = Some x → spread earlier n !! f = Some x)
  ∧ (cs = [ {[ "id" := VNum 1; "title" := VStr "A"; "x" := VNum 1 ]} ] →
     after [ {[ "id" := VNum 1; "title" := VStr "B" ]} ]
     = [ {[ "id" := VNum 1; "title" := VStr "B"; "x" := VNum 1 ]} ]).
Proof.
  intros after cs. subst after. split_and!.
  - apply addConversations_app.
  - intros n Hn.
    destruct (get_of_entries_known _ _ Hn) as (existing & Hget & Hin & Hid).
    exists existing. split_and!; [done..| |intros f; apply lookup_spread].
    rewrite by_id_after_add by done. unfold merged_map. simpl.
    fold cs. by rewrite get_upsert_eq, Hget.
  - intros n Hn. apply get_of_entries_unknown in Hn as Hget.
    split.
    + rewrite by_id_after_add by done. unfold merged_map. simpl.
      fold cs. by rewrite get_upsert_eq, Hget, spread_empty.
    + rewrite conversations_after_add. simpl. unfold merged_map. simpl.
      fold cs. rewrite upsert_map_eq, Hget. simpl.
      rewrite spread_empty, set_absent by done.
      unfold JSMap.values. rewrite fmap_app. apply last_snoc.
  - intros batch1 n batch2 Hn.
    rewrite by_id_after_add by (by destruct batch1).
    unfold merged_map. rewrite get_fold.
    rewrite bool_decide_eq_true_2.
    + rewrite merge_all_app, merge_all_cons, strict_eq_refl.
      rewrite merge_all_other by done.
      eexists. split; [done|].
      intros f x Hx. by rewrite lookup_spread, Hx.
    + unfold ids. rewrite fmap_app. apply elem_of_app. right. by left.
  - intros Hcs. rewrite conversations_after_add. simpl. fold cs.
    rewrite Hcs. by vm_compute.
Qed.

End MergePrecedence.

(** ** The query engine *)

Section QueryEngine.
Context `{Host}.
Implicit Types (w : World) (request : Request.t) (cs : list obj).

Lemma sort_insert_Permutation {A : Type} (cmp : A → A → Z) (x : A) (l : list A) :
  sort_insert cmp x l ≡ₚ x :: l.
Proof.
  induction l as [|y l IH]; simpl; [done|].
  destruct (cmp x y <=? 0)%Z; [done|].
  rewrite IH. apply Permutation_swap.
Qed.

(** Sorting rearranges; it neither drops nor adds an element. *)
Lemma sort_Permutation {A : Type} (cmp : A → A → Z) (l : list A) :
  sort cmp l ≡ₚ l.
Proof.
  induction l as [|x l IH]; simpl; [done|].
  by rewrite sort_insert_Permutation, IH.
Qed.

Lemma find_folder_None w (folderId : slot) :
  ¬ folder_exists w folderId →
  find (λ f, strict_eq (folder_id f) folderId) (folders (localDB w)) = None.
Proof.
  unfold folder_exists. induction (folders (localDB w)) as [|f fs IH]; [done|].
  intros Hno. simpl. destruct (strict_eq (folder_id f) folderId) eqn:E.
  - apply strict_eq_true in E. destruct Hno. by left.
  - apply IH. intros Hex. apply Hno. by right.
Qed.

Lemma text_filter_falsy w (searchTerm : slot) (results : results_ref) :
  truthy searchTerm = false → text_filter w searchTerm results = Normal results.
Proof.
  unfold text_filter. destruct searchTerm as [term|]; [|done]. by intros ->.
Qed.

(** A [folderId] that is neither a folder of the store nor the trash
    sentinel leaves [results] as it is. *)
Lemma folder_filter_unknown w (folderId : slot) (results : results_ref) :
  ¬ folder_exists w folderId →
  folderId ≠ Some (VStr "trash") →
  folder_filter w folderId results = results.
Proof.
  intros Hno Htrash. unfold folder_filter.
  destruct (truthy folderId && _); [|done].
  rewrite find_folder_None by done.
  by apply strict_eq_false in Htrash as ->.
Qed.

(** C6. A [folderId] that is given (truthy), is not ["all"], is not
    ["trash"] and matches no folder of the store is ignored: the request
    is answered, and leaves the state, exactly as the same request
    without [folderId] -- text-filtered, sorted and paginated alike;
    neither an empty result nor an error. *)
Theorem getConversations_unknown_folder w request :
  truthy (Request.folderId request) = true →
  Request.folderId request ≠ Some (VStr "all") →
  Request.folderId request ≠ Some (VStr "trash") →
  ¬ folder_exists w (Request.folderId request) →
  getConversations w request = getConversations w (without_folderId request).
Proof.
  intros _ _ Htrash Hno. unfold getConversations. simpl.
  destruct (text_filter w (Request.searchTerm request) OfStore)
    as [results|e]; [|done].
  by rewrite folder_filter_unknown.
Qed.

(** C1, as amended.  When no folder of the store has the identity
    ["trash"], a request with [folderId = "trash"] and no search term is
    answered with exactly the conversations flagged [isTrashed]: the
    response pages through a rearrangement of them, with their number as
    the total, and the state is left as it was. *)
Theorem getConversations_trash w request :
  ¬ folder_exists w (Some (VStr "trash")) →
  Request.folderId request = Some (VStr "trash") →
  truthy (Request.searchTerm request) = false →
  returns_trashed w request
  ∧ (getConversations w request).1 = w.
Proof.
  intros Hno Hid Hterm.
  assert (getConversations w request
          = (w, Normal
                  (let results :=
                     sort by_time_desc
                          (List.filter trashed (conversations (localDB w))) in
                   let page := default 1%Z (Request.page request) in
                   let limit := default 20%Z (Request.limit request) in
                   let start := ((page - 1) * limit)%Z in
                   Page (slice results start (start + limit)%Z)
                        (length results) page limit))) as Hrun.
  { unfold getConversations. rewrite text_filter_falsy by done.
    rewrite Hid. unfold folder_filter. simpl.
    by rewrite find_folder_None. }
  rewrite Hrun. split; [|done].
  exists (sort by_time_desc (List.filter trashed (conversations (localDB w)))).
  split; [apply sort_Permutation|]. unfold pages_through. by rewrite Hrun.
Qed.

End QueryEngine.

(** *** Reads that write *)

Section QueryFrame.
Context `{Host}.
Implicit Types (w : World) (request : Request.t).

(** Whatever the request, [getConversations] changes nothing in the state
    but, possibly, the order of [localDB.conversations]. *)
Lemma getConversations_state w request :
  ∃ cs, cs ≡ₚ conversations (localDB w)
        ∧ (getConversations w request).1
          = set_localDB (set_conversations cs (localDB w)) w.
Proof.
  unfold getConversations.
  destruct (text_filter w (Request.searchTerm request) OfStore)
    as [results|e]; simpl.
  - destruct (folder_filter w (Request.folderId request) results)
      as [|l]; simpl.
    + eexists. split; [apply sort_Permutation | done].
    + exists (conversations (localDB w)).
      split; [done | by rewrite set_conversations_same].
  - exists (conversations (localDB w)).
    split; [done | by rewrite set_conversations_same].
Qed.

(** As soon as one of the two filters applies, [results] is an array of
    its own and the state is left untouched. *)
Lemma getConversations_filtered_pure w request :
  truthy (Request.searchTerm request) = true →
  (getConversations w request).1 = w.
Proof.
  intros Hterm. unfold getConversations, text_filter.
  destruct (Request.searchTerm request) as [term|]; [|done].
  rewrite Hterm. destruct (lower "searchTerm" term) as [lowerTerm|e]; [|done].
  destruct (filterM _ _) as [l|e]; [|done]. simpl.
  unfold folder_filter.
  destruct (truthy _ && _); [|done].
  destruct (find _ _); [done|]. by destruct (strict_eq _ _).
Qed.

(** C2, at the input on which it fails.  A store that holds two
    conversations, the older one first, is asked for its conversations
    with no search term and no folder: no filter creates a new array,
    [sort] runs on [localDB.conversations] itself, and the store comes
    out with the two conversations swapped. *)
Theorem getConversations_reorders_store :
  let older : obj := {[ "id" := VStr "a"; "update_time" := VNum 1 ]} in
  let newer : obj := {[ "id" := VStr "b"; "update_time" := VNum 2 ]} in
  let w := world_with [older; newer] [] in
  conversations (localDB w) = [older; newer]
  ∧ conversations_after (getConversations w Request.empty) = [newer; older]
  ∧ (getConversations w Request.empty).1 ≠ w.
Proof.
  intros older newer w.
  assert (conversations_after (getConversations w Request.empty)
          = [newer; older]) as Hafter by by vm_compute.
  split_and!; [done..|].
  intros Hsame. unfold conversations_after in Hafter.
  rewrite Hsame in Hafter.
  apply (f_equal (λ cs, head cs ≫= field "id")) in Hafter.
  by vm_compute in Hafter.
Qed.

End QueryFrame.

(** ** The dispatch gateway *)

Section Gateway.
Context `{Host}.
Implicit Types (w : World) (request : Request.t) (worldAt : nat → World).

Lemma handleMessage_ping w request :
  action_of request = Some "ping" → handleMessage w request = (w, Status "ok").
Proof. intros Ha. unfold handleMessage. by rewrite Ha. Qed.

(** An action that names no property of [Controller], own or inherited,
    and is not ["ping"], gets the structured failure. *)
Lemma handleMessage_unknown w request :
  Controller (action_of request) = None →
  action_of request ≠ Some "ping" →
  handleMessage w request = (w, Failure "Unknown action").
Proof.
  intros Hc Hp. unfold handleMessage. rewrite Hc.
  by rewrite bool_decide_eq_false_2.
Qed.

(** An exception thrown by what [Controller[action]] designates is caught
    and answered with its message. *)
Lemma handleMessage_catches w request (p : property) w' (message : string) :
  Controller (action_of request) = Some p →
  call p w request = (w', Throw message) →
  handleMessage w request = (w', Failure message).
Proof. intros Hc Hcall. unfold handleMessage. by rewrite Hc, Hcall. Qed.

(** C9, at an input on which it fails.  ["toString"] is none of the seven
    controllers and is not ["ping"], yet [Controller["toString"]] is the
    method inherited from [Object.prototype]; the router calls it and
    answers with the string it returns instead of the failure
    [{ success: false, error: "Unknown action" }]. *)
Theorem handleMessage_inherited_action w :
  assoc "toString" Controller_own = None
  ∧ action_of (action_request "toString") ≠ Some "ping"
  ∧ handleMessage w (action_request "toString") = (w, Text "[object Object]")
  ∧ (handleMessage w (action_request "toString")).2 ≠ Failure "Unknown action".
Proof. by split_and!. Qed.

Lemma poll_timeout worldAt request (remaining retries : nat) :
  (∀ j, (retries ≤ j < retries + remaining)%nat →
        isDBReady (worldAt j) = false) →
  poll worldAt request retries remaining
  = (worldAt (retries + remaining)%nat,
     Failure "Database initialization timeout").
Proof.
  revert retries. induction remaining as [|remaining IH]; intros retries Hno.
  - simpl. by rewrite Nat.add_0_r.
  - simpl. rewrite Hno by lia. rewrite IH.
    + by rewrite Nat.add_succ_r.
    + intros j Hj. apply Hno. lia.
Qed.

Lemma poll_ready worldAt request (remaining retries i : nat) :
  (retries ≤ i < retries + remaining)%nat →
  isDBReady (worldAt i) = true →
  (∀ j, (retries ≤ j < i)%nat → isDBReady (worldAt j) = false) →
  poll worldAt request retries remaining = handleMessage (worldAt i) request.
Proof.
  revert retries. induction remaining as [|remaining IH]; intros retries Hi Hr Hno.
  - lia.
  - simpl. destruct (decide (retries = i)) as [->|Hne].
    + by rewrite Hr.
    + rewrite Hno by lia. apply IH; [lia | done |].
      intros j Hj. apply Hno. lia.
Qed.

(** C3, as amended.  A ["ping"] is answered by the router itself, with
    [{ status: "ok" }], without calling a controller and without touching
    the state -- but only once the store is ready: at once when it is
    ready on arrival, at the first of the ten polls that finds it ready
    otherwise, and when no poll does the answer is the initialization
    timeout failure like for any other request. *)
Theorem ping_waits_for_ready worldAt request :
  action_of request = Some "ping" →
  (isDBReady (worldAt 0%nat) = true →
   onMessage worldAt request = (worldAt 0%nat, Status "ok"))
  ∧ (∀ i, (i < maxRetries)%nat →
          isDBReady (worldAt i) = true →
          (∀ j, (j < i)%nat → isDBReady (worldAt j) = false) →
          onMessage worldAt request = (worldAt i, Status "ok"))
  ∧ ((∀ j, (j < maxRetries)%nat → isDBReady (worldAt j) = false) →
     onMessage worldAt request
     = (worldAt maxRetries, Failure "Database initialization timeout")).
Proof.
  intros Ha. split_and!.
  - intros Hr. unfold onMessage. rewrite Hr. cbn [negb].
    by apply handleMessage_ping.
  - intros i Hi Hr Hno. unfold onMessage.
    destruct (isDBReady (worldAt 0%nat)) eqn:E0; cbn [negb].
    + destruct i as [|i]; [by apply handleMessage_ping|].
      rewrite Hno in E0 by lia. done.
    + rewrite (poll_ready _ _ _ _ i); [by apply handleMessage_ping | lia | done |].
      intros j Hj. apply Hno. lia.
  - intros Hno. unfold onMessage. rewrite Hno by (unfold maxRetries; lia).
    cbn [negb]. rewrite poll_timeout; [done|].
    intros j Hj. apply Hno. lia.
Qed.

End Gateway.

(** ** Prompts *)

Section PromptFacts.
Context `{Host}.
Implicit Types (w : World) (request : Request.t) (p stored : loc).

Lemma findIndex_Some {A : Type} (q : A → bool) (l : list A) (i : nat) :
  findIndex q l = Some i → ∃ x, l !! i = Some x ∧ q x = true.
Proof.
  revert i. induction l as [|y l IH]; intros i; simpl; [done|].
  destruct (q y) eqn:E.
  - intros [= <-]. by exists y.
  - destruct (findIndex q l) as [j|]; [|done].
    intros [= <-]. by apply IH.
Qed.

Lemma findIndex_None {A : Type} (q : A → bool) (l : list A) :
  findIndex q l = None ↔ ∀ x, x ∈ l → q x = false.
Proof.
  induction l as [|y l IH]; simpl.
  - split; [by intros _ x ?%elem_of_nil | done].
  - destruct (q y) eqn:E.
    + split; [done|]. intros Hall. rewrite Hall in E; [done | by left].
    + destruct (findIndex q l) as [j|].
      * split; [done|]. intros Hall.
        destruct IH as [_ IH]. discriminate IH.
        intros x Hx. apply Hall. by right.
      * split; [|done]. intros _ x [->|Hx]%elem_of_cons; [done|].
        by apply IH.
Qed.

Lemma findIndex_ext {A : Type} (q1 q2 : A → bool) (l : list A) :
  (∀ x, x ∈ l → q1 x = q2 x) → findIndex q1 l = findIndex q2 l.
Proof.
  induction l as [|y l IH]; intros Hq; simpl; [done|].
  rewrite (Hq y) by by left. rewrite IH; [done|].
  intros x Hx. apply Hq. by right.
Qed.

Lemma fresh_not_allocated (h : gmap loc obj) : h !! fresh (dom h) = None.
Proof. apply not_elem_of_dom, is_fresh. Qed.

(** [savePrompt], with the two cases of the identity spelled out. *)
Lemma savePrompt_unfold w request :
  savePrompt w request
  = let input := input_prompt w request in
    let stored : loc := fresh (dom (heap w)) in
    let copied : obj :=
      if truthy (field "id" input) then input
      else <["id" := VStr (randomUUID (drawn w))]> input in
    let n := if truthy (field "id" input) then drawn w else S (drawn w) in
    let h := <[stored := copied]> (heap w) in
    let ps := prompts (localDB w) in
    let ps' :=
      match findIndex (λ p, strict_eq (field "id" (object_at h p))
                                      (field "id" copied)) ps with
      | Some i => <[i := stored]> ps
      | None => ps ++ [stored]
      end in
    (saveDB (set_drawn n (set_heap h (set_localDB (set_prompts ps' (localDB w)) w))),
     Normal (Saved stored)).
Proof.
  unfold savePrompt, input_prompt.
  by destruct (truthy (field "id" _)).
Qed.

(** C8. What [savePrompt] does.
    - It returns a newly created object, the copy; no object that existed
      before the call -- the caller's prompt among them -- is written, so
      an input without an [id] still has none afterwards.
    - When the input has no [id], the copy is the input with the next
      identifier of [crypto.randomUUID] as its [id]; when the input has a
      (truthy) [id], the copy has the fields of the input.
    - When a stored prompt already has the [id] of the copy, the copy takes
      the place of the first such prompt and the collection keeps its
      length; otherwise the copy is appended.
    - In both cases the returned object is the one held by the store. *)
Theorem savePrompt_upsert w request :
  prompts_allocated w →
  let input := input_prompt w request in
  let w' := (savePrompt w request).1 in
  let ps := prompts (localDB w) in
  let ps' := prompts (localDB w') in
  ∃ stored,
    (savePrompt w request).2 = Normal (Saved stored)
    ∧ heap w !! stored = None
    ∧ (∀ p o, heap w !! p = Some o → heap w' !! p = Some o)
    ∧ (field "id" input = None →
       heap w' !! stored
       = Some (<["id" := VStr (randomUUID (drawn w))]> input))
    ∧ (truthy (field "id" input) = true → heap w' !! stored = Some input)
    ∧ ((∃ p, p ∈ ps ∧ field "id" (object_at (heap w) p)
                      = field "id" (object_at (heap w') stored)) →
       ∃ i p, ps !! i = Some p
              ∧ field "id" (object_at (heap w) p)
                = field "id" (object_at (heap w') stored)
              ∧ ps' = <[i := stored]> ps
              ∧ length ps' = length ps)
    ∧ ((∀ p, p ∈ ps → field "id" (object_at (heap w) p)
                      ≠ field "id" (object_at (heap w') stored)) →
       ps' = ps ++ [stored])
    ∧ stored ∈ ps'.
Proof.
  intros Halloc input w' ps ps'. subst w' ps'.
  unfold prompts_allocated in Halloc. rewrite Forall_forall in Halloc.
  rewrite savePrompt_unfold. cbv zeta. fold input. simpl. fold ps.
  set (stored := fresh (dom (heap w))).
  set (copied := if truthy (field "id" input) then input else _).
  assert (heap w !! stored = None) as Hfresh by apply fresh_not_allocated.
  assert (∀ p, p ∈ ps → object_at (<[stored := copied]> (heap w)) p
                        = object_at (heap w) p) as Hold.
  { intros p [o Ho]%Halloc. unfold object_at.
    rewrite lookup_insert_ne; [done|]. intros <-. congruence. }
  assert (object_at (<[stored := copied]> (heap w)) stored = copied) as Hnew.
  { unfold object_at. by rewrite lookup_insert_eq. }
  exists stored. rewrite Hnew.
  rewrite (findIndex_ext _
             (λ p, strict_eq (field "id" (object_at (heap w) p))
                             (field "id" copied)) ps)
    by (intros p Hp; by rewrite Hold).
  split_and!.
  - done.
  - done.
  - intros p o Ho. rewrite lookup_insert_ne; [done|]. intros <-. congruence.
  - intros Hid. rewrite lookup_insert_eq. subst copied.
    by rewrite Hid.
  - intros Hid. rewrite lookup_insert_eq. subst copied. by rewrite Hid.
  - intros (p & Hp & Hpid).
    destruct (findIndex _ ps) as [i|] eqn:E.
    + destruct (findIndex_Some _ _ _ E) as (q & Hq & Hqid).
      apply strict_eq_true in Hqid.
      exists i, q. split_and!; [done..|]. by rewrite length_insert.
    + rewrite findIndex_None in E. specialize (E p Hp).
      apply strict_eq_false in E. done.
  - intros Hnone.
    destruct (findIndex _ ps) as [i|] eqn:E; [|done].
    destruct (findIndex_Some _ _ _ E) as (q & Hq & Hqid).
    apply strict_eq_true in Hqid.
    destruct (Hnone q); [|done]. by eapply list_elem_of_lookup_2.
  - destruct (findIndex _ ps) as [i|] eqn:E.
    + destruct (findIndex_Some _ _ _ E) as (q & Hq & _).
      apply list_elem_of_lookup. exists i.
      apply list_lookup_insert_eq. by eapply lookup_lt_Some.
    + apply elem_of_app. right. by left.
Qed.

(** The store keeps holding allocated objects only. *)
Lemma savePrompt_allocated w request :
  prompts_allocated w → prompts_allocated (savePrompt w request).1.
Proof.
  unfold prompts_allocated. rewrite !Forall_forall.
  intros Halloc. rewrite savePrompt_unfold. cbv zeta. simpl.
  set (stored := fresh (dom (heap w))).
  assert (∀ (o : obj) p, p ∈ prompts (localDB w) ∨ p = stored →
                         is_Some (<[stored := o]> (heap w) !! p)) as Hok.
  { intros o p [Hp| ->]; [|rewrite lookup_insert_eq; by eexists].
    apply lookup_insert_is_Some'. right. by apply Halloc. }
  intros p Hp. apply Hok.
  destruct (findIndex _ _) as [i|].
  - apply list_elem_of_lookup in Hp as [j Hj].
    destruct (decide (i = j)) as [->|Hne].
    + right. apply list_lookup_insert_Some in Hj as [(_ & Hp & _)|[? _]]; done.
    + left. rewrite list_lookup_insert_ne in Hj by done.
      by eapply list_elem_of_lookup_2.
  - apply elem_of_app in Hp as [?| ->%list_elem_of_singleton]; auto.
Qed.

End PromptFacts.

(** ** The properties on sample data *)

Section OnSamples.
Local Existing Instance example_host.

(** Decides a closed decidable proposition by evaluation. *)
Local Ltac by_evaluation := compute_done.

(** C1, as first stated, fails.  The store holds a real folder whose
    identity is ["trash"]; a request with [folderId = "trash"] and no
    search term is then answered from that folder's [conversationIds], not
    with the conversations flagged [isTrashed]. *)
Lemma trash_sentinel_shadowed :
  let request := folder_request (VStr "trash") in
  Request.folderId request = Some (VStr "trash")
  ∧ Request.searchTerm request = None
  ∧ (getConversations Sample.store_with_trash_folder request).2
    = Normal (Page [Sample.chat_a] 1 1 20)
  ∧ List.filter trashed (conversations (localDB Sample.store_with_trash_folder))
    = [Sample.chat_b]
  ∧ ¬ returns_trashed Sample.store_with_trash_folder request.
Proof.
  intros request.
  assert ((getConversations Sample.store_with_trash_folder request).2
          = Normal (Page [Sample.chat_a] 1 1 20)) as Hrun by by vm_compute.
  assert (List.filter trashed
            (conversations (localDB Sample.store_with_trash_folder))
          = [Sample.chat_b]) as Htrashed by by vm_compute.
  split_and!; [done..|].
  intros (results & Hperm & Hpages).
  rewrite Htrashed in Hperm. apply Permutation_singleton_r in Hperm as ->.
  unfold pages_through in Hpages. rewrite Hrun in Hpages.
  apply (f_equal (λ r, match r with
                       | Normal (Page (c :: _) _ _ _) => field "id" c
                       | _ => None
                       end)) in Hpages.
  by vm_compute in Hpages.
Qed.

Lemma getConversations_trash_witness :
  ¬ folder_exists Sample.store (Some (VStr "trash"))
  ∧ returns_trashed Sample.store (folder_request (VStr "trash"))
  ∧ (getConversations Sample.store (folder_request (VStr "trash"))).1
    = Sample.store.
Proof.
  assert (¬ folder_exists Sample.store (Some (VStr "trash"))) as Hno
    by (unfold folder_exists; by_evaluation).
  destruct (getConversations_trash Sample.store
              (folder_request (VStr "trash")) Hno eq_refl eq_refl)
    as (Hret & Hsame).
  exact (conj Hno (conj Hret Hsame)).
Defined.

Lemma getConversations_unknown_folder_witness :
  let request := folder_request (VStr "archive") in
  ¬ folder_exists Sample.store (Request.folderId request)
  ∧ getConversations Sample.store request
    = getConversations Sample.store (without_folderId request).
Proof.
  intros request.
  assert (¬ folder_exists Sample.store (Request.folderId request)) as Hno
    by (unfold folder_exists; by_evaluation).
  split; [exact Hno|].
  apply (getConversations_unknown_folder Sample.store request);
    [reflexivity | discriminate | discriminate | exact Hno].
Defined.

Lemma addConversations_unique_ids_witness :
  unique_ids (conversations (localDB Sample.store))
  ∧ unique_ids
      (conversations_after
         (addConversations Sample.store (batch_request Sample.batch))).
Proof.
  assert (unique_ids (conversations (localDB Sample.store))) as Hw
    by (unfold unique_ids; by_evaluation).
  split; [exact Hw|].
  exact (addConversations_unique_ids Sample.store
           (batch_request Sample.batch) Hw).
Defined.

Lemma addConversations_legacy_equiv_witness :
  unique_ids (conversations (localDB Sample.store))
  ∧ Legacy.addConversations Sample.store (batch_request Sample.batch)
    = addConversations Sample.store (batch_request Sample.batch).
Proof.
  assert (unique_ids (conversations (localDB Sample.store))) as Hw
    by (unfold unique_ids; by_evaluation).
  split; [exact Hw|].
  exact (addConversations_legacy_equiv Sample.store
           (batch_request Sample.batch) Hw).
Defined.

(** Without the invariant the two revisions differ: the current one
    collapses conversations that share an [id], the earlier one keeps
    both. *)
Example addConversations_legacy_differs :
  let w := world_with [Sample.chat_a; Sample.chat_a] [] in
  let request := batch_request [Sample.chat_c] in
  length (conversations_after (Legacy.addConversations w request)) = 3%nat
  ∧ length (conversations_after (addConversations w request)) = 2%nat.
Proof. by vm_compute. Qed.

(** C3, as first stated, fails.  While the store is not ready a ["ping"]
    goes through the polling loop like every request; when the store does
    not become ready it is answered with the timeout failure. *)
Lemma ping_times_out :
  let request := action_request "ping" in
  action_of request = Some "ping"
  ∧ isDBReady (Sample.never_ready 0%nat) = false
  ∧ onMessage Sample.never_ready request
    = (initial_world, Failure "Database initialization timeout")
  ∧ (onMessage Sample.never_ready request).2 ≠ Status "ok".
Proof. by split_and!. Qed.

Lemma ping_waits_for_ready_witness :
  action_of (action_request "ping") = Some "ping"
  ∧ onMessage Sample.ready_at_third_poll (action_request "ping")
    = (Sample.store, Status "ok")
  ∧ onMessage Sample.never_ready (action_request "ping")
    = (initial_world, Failure "Database initialization timeout").
Proof.
  destruct (ping_waits_for_ready Sample.ready_at_third_poll
              (action_request "ping") eq_refl) as (_ & Hready & _).
  destruct (ping_waits_for_ready Sample.never_ready
              (action_request "ping") eq_refl) as (_ & _ & Htimeout).
  split_and!.
  - reflexivity.
  - apply (Hready 3%nat).
    + unfold maxRetries. lia.
    + reflexivity.
    + intros j Hj. unfold Sample.ready_at_third_poll.
      by apply Nat.ltb_lt in Hj as ->.
  - apply Htimeout. reflexivity.
Defined.

Lemma savePrompt_upsert_witness :
  let request := prompt_request 2%positive in
  let w' := (savePrompt Sample.prompt_world request).1 in
  prompts_allocated Sample.prompt_world
  ∧ heap w' !! 2%positive = Some {[ "text" := VStr "new" ]}
  ∧ ∃ stored,
      (savePrompt Sample.prompt_world request).2 = Normal (Saved stored)
      ∧ heap w' !! stored
        = Some {[ "id" := VStr "uuid-0"; "text" := VStr "new" ]}
      ∧ prompts (localDB w') = [1%positive; stored].
Proof.
  intros request w'.
  assert (prompts_allocated Sample.prompt_world) as Halloc
    by (unfold prompts_allocated; by_evaluation).
  pose proof (savePrompt_upsert Sample.prompt_world request Halloc) as Hspec.
  cbv zeta in Hspec. subst w'.
  destruct Hspec as (stored & Hret & _ & Hkeep & Hnew & _ & _ & Happend & _).
  split_and!.
  - exact Halloc.
  - apply Hkeep. reflexivity.
  - exists stored. split_and!.
    + exact Hret.
    + rewrite Hnew by reflexivity. reflexivity.
    + apply Happend.
      assert (stored = 3%positive) as -> by (vm_compute in Hret; congruence).
      apply Forall_forall. by_evaluation.
Defined.

(** The earlier [savePrompt] wrote the identifier into the caller's own
    object. *)
Example legacy_savePrompt_writes_input :
  let request := prompt_request 2%positive in
  heap (Legacy.savePrompt Sample.prompt_world request).1 !! 2%positive
  = Some {[ "id" := VStr "uuid-0"; "text" := VStr "new" ]}.
Proof. by vm_compute. Qed.

(** An exception raised inside a controller is answered with its
    message: a search term that is a number has no [toLowerCase]. *)
Example handleMessage_catches_TypeError :
  let request :=
    {| Request.type := Some "getConversations"; Request.action := None;
       Request.conversations := None; Request.page := None;
       Request.limit := None; Request.searchTerm := Some (VNum 5);
       Request.folderId := None; Request.prompt := None;
       Request.id := None |} in
  handleMessage Sample.store request
  = (Sample.store, Failure "searchTerm.toLowerCase is not a function").
Proof. by vm_compute. Qed.

(** The composition of filter, sort and pagination on the sample store. *)
Example getConversations_first_page :
  let request :=
    {| Request.type := None; Request.action := Some "getConversations";
       Request.conversations := None; Request.page := Some 1%Z;
       Request.limit := Some 2%Z; Request.searchTerm := None;
       Request.folderId := None; Request.prompt := None;
       Request.id := None |} in
  (getConversations Sample.store request).2
  = Normal (Page [Sample.chat_b; Sample.chat_c] 3 1 2).
Proof. by vm_compute. Qed.

End OnSamples.

(** ** More on the query engine *)

Section Paging.
Context `{Host}.
Implicit Types (w : World) (request : Request.t) (results : list obj).

(** The response is the page cut out of [selected]. *)
Lemma getConversations_selected w request :
  (getConversations w request).2
  = match selected w request with
    | Throw e => Throw e
    | Normal results =>
        let page := default 1%Z (Request.page request) in
        let limit := default 20%Z (Request.limit request) in
        let start := ((page - 1) * limit)%Z in
        Normal (Page (slice results start (start + limit)%Z)
                     (length results) page limit)
    end.
Proof.
  unfold getConversations, selected.
  destruct (text_filter w (Request.searchTerm request) OfStore)
    as [results|e]; [|done].
  by destruct (folder_filter w (Request.folderId request) results).
Qed.

Lemma selected_paged w request (page limit : Z) :
  selected w (paged request page limit) = selected w request.
Proof. done. Qed.

(** From a non-negative start, [slice] is a window of the given width. *)
Lemma slice_window {A : Type} (l : list A) (start width : Z) :
  (0 ≤ start)%Z → (0 ≤ width)%Z →
  slice l start (start + width)
  = take (Z.to_nat width) (drop (Z.to_nat start) l).
Proof.
  intros Hs Hw. unfold slice, clamp_index.
  rewrite (proj2 (Z.ltb_ge start 0)) by done.
  rewrite (proj2 (Z.ltb_ge (start + width) 0)) by lia.
  destruct (decide (Z.of_nat (length l) ≤ start)%Z) as [Hge|Hlt].
  - rewrite (drop_ge l (Z.to_nat start)) by lia.
    rewrite drop_ge by lia. by rewrite !take_nil.
  - rewrite (Z.min_l start) by lia. apply Z.nle_gt in Hlt.
    destruct (decide (start + width ≤ Z.of_nat (length l))%Z).
    + rewrite (Z.min_l (start + width)) by lia. f_equal. lia.
    + rewrite (Z.min_r (start + width)) by lia.
      rewrite !take_ge; [done | rewrite length_drop; lia..].
Qed.

(** [slice] is empty as soon as its end does not lie after its start. *)
Lemma slice_empty {A : Type} (l : list A) (start stop : Z) :
  (clamp_index (Z.of_nat (length l)) stop
   ≤ clamp_index (Z.of_nat (length l)) start)%Z →
  slice l start stop = [].
Proof.
  intros Hle. unfold slice.
  replace (Z.to_nat _) with 0%nat by lia. apply take_0.
Qed.

(** X1. Pagination.  For a page number from 1 on and a non-negative
    limit, the conversations of the response are the window of [limit]
    results that starts after the first [(page - 1) * limit] ones: never
    more than [limit] of them, none when the page lies beyond the last
    result; and [total] is the number of all results, the same on every
    page. *)
Theorem getConversations_page_window w request (page limit : Z) results :
  (1 ≤ page)%Z → (0 ≤ limit)%Z →
  selected w request = Normal results →
  let items :=
    take (Z.to_nat limit) (drop (Z.to_nat ((page - 1) * limit)) results) in
  (getConversations w (paged request page limit)).2
  = Normal (Page items (length results) page limit)
  ∧ (length items ≤ Z.to_nat limit)%nat
  ∧ ((Z.of_nat (length results) ≤ (page - 1) * limit)%Z → items = []).
Proof.
  intros Hp Hl Hsel items. split_and!.
  - rewrite getConversations_selected, selected_paged, Hsel. simpl.
    by rewrite slice_window by (try apply Z.mul_nonneg_nonneg; lia).
  - subst items. rewrite length_take. lia.
  - intros Hbeyond. subst items. rewrite drop_ge by lia. apply take_nil.
Qed.

(** X2. Page 0, and a limit of 0, give an empty page whatever the other
    of the two numbers is (also a negative one); [total] still counts all
    results. *)
Theorem getConversations_empty_page w request (page limit : Z) results :
  page = 0%Z ∨ limit = 0%Z →
  selected w request = Normal results →
  (getConversations w (paged request page limit)).2
  = Normal (Page [] (length results) page limit).
Proof.
  intros Hz Hsel.
  rewrite getConversations_selected, selected_paged, Hsel. simpl.
  rewrite slice_empty; [done|].
  unfold clamp_index.
  destruct Hz as [-> | ->]; repeat case_match; lia.
Qed.

End Paging.

(** *** Filtering *)

Lemma elem_of_List_filter {A : Type} (p : A → bool) (l : list A) (x : A) :
  x ∈ List.filter p l ↔ x ∈ l ∧ p x = true.
Proof. by rewrite !list_elem_of_In, List.filter_In. Qed.

Lemma Forall_List_filter {A : Type} (P : A → Prop) (p : A → bool) (l : list A) :
  Forall P l → Forall P (List.filter p l).
Proof.
  rewrite !Forall_forall. intros Hl x [Hx _]%elem_of_List_filter. auto.
Qed.

(** *** Sorting by a key *)

Section SortByKey.
Context {A : Type} (cmp : A → A → Z) (key : A → Z) (valid : A → Prop).
Hypothesis cmp_key : ∀ a b, valid a → valid b → cmp a b = (key b - key a)%Z.

Lemma sort_insert_valid (x : A) (l : list A) :
  valid x → Forall valid l → Forall valid (sort_insert cmp x l).
Proof.
  intros Hx Hl. rewrite sort_insert_Permutation. by constructor.
Qed.

Lemma sort_valid (l : list A) : Forall valid l → Forall valid (sort cmp l).
Proof. intros Hl. by rewrite sort_Permutation. Qed.

Lemma sort_insert_sorted (x : A) (l : list A) :
  valid x → Forall valid l →
  StronglySorted (key_desc key) l → StronglySorted (key_desc key) (sort_insert cmp x l).
Proof.
  intros Hx Hl Hs. induction l as [|y l IH]; simpl.
  - by repeat constructor.
  - apply Forall_cons in Hl as [Hy Hl].
    apply StronglySorted_cons in Hs as [Hyl Hs].
    pose proof (cmp_key x y Hx Hy) as Hc.
    destruct (cmp x y <=? 0)%Z eqn:E.
    + apply Z.leb_le in E. apply StronglySorted_cons. split.
      * constructor; [unfold key_desc; lia|].
        eapply Forall_impl; [exact Hyl|]. unfold key_desc. intros z ?. lia.
      * by apply StronglySorted_cons.
    + apply Z.leb_gt in E. apply StronglySorted_cons. split; [|by apply IH].
      rewrite sort_insert_Permutation. constructor; [|done].
      unfold key_desc. lia.
Qed.

Lemma sort_sorted (l : list A) :
  Forall valid l → StronglySorted (key_desc key) (sort cmp l).
Proof.
  induction l as [|x l IH]; intros Hl; simpl; [constructor|].
  apply Forall_cons in Hl as [Hx Hl].
  apply sort_insert_sorted; [done | by apply sort_valid | by apply IH].
Qed.

(** An element that may precede all of a list is inserted in front. *)
Lemma sort_insert_front (x : A) (l : list A) :
  valid x → Forall valid l → Forall ((key_desc key) x) l →
  sort_insert cmp x l = x :: l.
Proof.
  intros Hx Hl Hd. destruct l as [|y l]; [done|]. simpl.
  apply Forall_cons in Hl as [Hy _]. apply Forall_cons in Hd as [Hd _].
  rewrite (cmp_key x y Hx Hy). unfold key_desc in Hd.
  by rewrite (proj2 (Z.leb_le _ _)) by lia.
Qed.

(** Sorting leaves a sorted array as it is. *)
Lemma sort_fixed (l : list A) :
  Forall valid l → StronglySorted (key_desc key) l → sort cmp l = l.
Proof.
  induction l as [|x l IH]; intros Hl Hs; simpl; [done|].
  apply Forall_cons in Hl as [Hx Hl].
  apply StronglySorted_cons in Hs as [Hxl Hs].
  rewrite IH by done. by apply sort_insert_front.
Qed.

Lemma filter_sort_insert (p : A → bool) (x : A) (l : list A) :
  valid x → Forall valid l → StronglySorted (key_desc key) l →
  List.filter p (sort_insert cmp x l)
  = if p x then sort_insert cmp x (List.filter p l) else List.filter p l.
Proof.
  intros Hx Hl Hs. induction l as [|y l IH]; simpl.
  - by destruct (p x).
  - apply Forall_cons in Hl as [Hy Hl].
    apply StronglySorted_cons in Hs as [Hyl Hs].
    pose proof (cmp_key x y Hx Hy) as Hc.
    destruct (cmp x y <=? 0)%Z eqn:E; simpl.
    + apply Z.leb_le in E. destruct (p x); [|done].
      symmetry.
      change (sort_insert cmp x (List.filter p (y :: l))
              = x :: List.filter p (y :: l)).
      apply sort_insert_front; [done | |].
      * apply Forall_List_filter. by constructor.
      * apply Forall_List_filter. constructor; [unfold key_desc; lia|].
        eapply Forall_impl; [exact Hyl|]. unfold key_desc. intros z ?. lia.
    + rewrite IH by done. destruct (p y), (p x); simpl; try done.
      by rewrite E.
Qed.

(** A stable sort and a filter can be applied in either order. *)
Lemma sort_filter (p : A → bool) (l : list A) :
  Forall valid l →
  sort cmp (List.filter p l) = List.filter p (sort cmp l).
Proof.
  induction l as [|x l IH]; intros Hl; simpl; [done|].
  apply Forall_cons in Hl as [Hx Hl].
  rewrite filter_sort_insert by (done || by apply sort_valid || by apply sort_sorted).
  destruct (p x); simpl; by rewrite IH.
Qed.

End SortByKey.

(** *** Most recent first *)

Section Ordering.
Context `{Host}.
Implicit Types (w : World) (request : Request.t) (cs results : list obj).

Lemma by_time_desc_key (a b : obj) :
  timed a → timed b → by_time_desc a b = (effective_time b - effective_time a)%Z.
Proof.
  unfold timed, by_time_desc, effective_time. intros [ta ->] [tb ->]. done.
Qed.

Lemma key_desc_not_older (a b : obj) :
  timed a → timed b → key_desc effective_time a b → not_older a b.
Proof.
  unfold timed, key_desc, not_older, effective_time. intros [ta Ha] [tb Hb].
  rewrite Ha, Hb. simpl. intros Hle. by exists ta, tb.
Qed.

Lemma sorted_by_time cs :
  Forall timed cs → StronglySorted not_older (sort by_time_desc cs).
Proof.
  intros Hcs.
  pose proof (sort_sorted by_time_desc effective_time timed by_time_desc_key cs Hcs)
    as Hs.
  pose proof (sort_valid by_time_desc timed cs Hcs) as Hv.
  induction Hs as [|c l Hl IH Hc]; [constructor|].
  apply Forall_cons in Hv as [Hcv Hv]. constructor; [by apply IH|].
  rewrite Forall_forall in Hc, Hv. apply Forall_forall. intros x Hx.
  apply key_desc_not_older; auto.
Qed.

Lemma StronglySorted_slice {A : Type} (R : A → A → Prop) (l : list A)
    (start stop : Z) :
  StronglySorted R l → StronglySorted R (slice l start stop).
Proof.
  intros Hl. unfold slice.
  set (k := Z.to_nat (clamp_index _ start)). set (n := Z.to_nat _).
  rewrite <- (take_drop k l) in Hl. apply StronglySorted_app_1_r in Hl.
  rewrite <- (take_drop n (drop k l)) in Hl.
  by apply StronglySorted_app_1_l in Hl.
Qed.

Lemma filterM_elem_of {A : Type} (p : A → completion bool) (l r : list A) :
  filterM p l = Normal r → ∀ x, x ∈ r → x ∈ l ∧ p x = Normal true.
Proof.
  revert r. induction l as [|y l IH]; intros r; simpl.
  - intros [= <-] x Hx. by apply elem_of_nil in Hx.
  - destruct (p y) as [b|e] eqn:Ey; [|done].
    destruct (filterM p l) as [r'|e]; [|done].
    intros [= <-] x Hx. destruct b.
    + apply elem_of_cons in Hx as [->|Hx]; [split; [by left | done]|].
      destruct (IH r' eq_refl x Hx). split; [by right | done].
    + destruct (IH r' eq_refl x Hx). split; [by right | done].
Qed.

Lemma filterM_sublist {A : Type} (p : A → completion bool) (l r : list A) :
  filterM p l = Normal r → r `sublist_of` l.
Proof.
  revert r. induction l as [|y l IH]; intros r; simpl.
  - by intros [= <-].
  - destruct (p y) as [b|e]; [|done].
    destruct (filterM p l) as [r'|e]; [|done].
    intros [= <-]. destruct b; constructor; by apply IH.
Qed.

Lemma List_filter_sublist {A : Type} (p : A → bool) (l : list A) :
  List.filter p l `sublist_of` l.
Proof.
  induction l as [|y l IH]; simpl; [done|].
  destruct (p y); by constructor.
Qed.

(** Whatever is selected is a part of the store, sorted. *)
Lemma selected_from_store w request results :
  selected w request = Normal results →
  ∃ l, results = sort by_time_desc l
       ∧ l `sublist_of` conversations (localDB w).
Proof.
  unfold selected.
  destruct (text_filter w (Request.searchTerm request) OfStore)
    as [r1|e] eqn:Et; [|done].
  assert (deref w r1 `sublist_of` conversations (localDB w)) as H1.
  { unfold text_filter in Et.
    destruct (Request.searchTerm request) as [term|]; [|by injection Et as <-].
    destruct (truthy (Some term)); [|by injection Et as <-].
    destruct (lower "searchTerm" term); [|done].
    destruct (filterM _ _) as [l|] eqn:Ef; [|done]. injection Et as <-.
    by apply filterM_sublist in Ef. }
  assert (deref w (folder_filter w (Request.folderId request) r1)
            `sublist_of` conversations (localDB w)) as H2.
  { unfold folder_filter. destruct (truthy _ && _); [|done].
    destruct (find _ _).
    - simpl. etrans; [apply List_filter_sublist | done].
    - destruct (strict_eq _ _); [|done].
      simpl. etrans; [apply List_filter_sublist | done]. }
  destruct (folder_filter w (Request.folderId request) r1) as [|l];
    simpl; intros [= <-]; eexists; split; done.
Qed.

(** X3. When every stored conversation has a valid effective timestamp
    ([update_time], else [create_time], else the epoch), the conversations
    of every response are ordered most recent first. *)
Theorem getConversations_most_recent_first w request
    (items : list obj) (total : nat) (page limit : Z) :
  Forall timed (conversations (localDB w)) →
  (getConversations w request).2 = Normal (Page items total page limit) →
  StronglySorted not_older items.
Proof.
  intros Hcs. rewrite getConversations_selected.
  destruct (selected w request) as [results|e] eqn:Hsel; [|done].
  intros [= <- _ _ _].
  destruct (selected_from_store _ _ _ Hsel) as (l & -> & Hl).
  apply StronglySorted_slice, sorted_by_time.
  rewrite Forall_forall in Hcs. apply Forall_forall.
  intros c Hc. apply Hcs. by eapply elem_of_sublist.
Qed.

Lemma slice_sublist {A : Type} (l : list A) (start stop : Z) :
  slice l start stop `sublist_of` l.
Proof.
  unfold slice. etrans; [apply sublist_take | apply sublist_drop].
Qed.

(** X4. Every conversation of a response is a conversation of the store;
    [total] never exceeds the size of the store, and the page never holds
    more than [total] conversations. *)
Theorem getConversations_from_store w request
    (items : list obj) (total : nat) (page limit : Z) :
  (getConversations w request).2 = Normal (Page items total page limit) →
  (∀ c, c ∈ items → c ∈ conversations (localDB w))
  ∧ (total ≤ length (conversations (localDB w)))%nat
  ∧ (length items ≤ total)%nat.
Proof.
  rewrite getConversations_selected.
  destruct (selected w request) as [results|e] eqn:Hsel; [|done].
  intros [= <- <- _ _].
  destruct (selected_from_store _ _ _ Hsel) as (l & -> & Hl).
  split_and!.
  - intros c Hc. eapply elem_of_sublist; [|exact Hl].
    rewrite <- (sort_Permutation by_time_desc l).
    eapply elem_of_sublist; [exact Hc | apply slice_sublist].
  - rewrite (Permutation_length (sort_Permutation by_time_desc l)).
    by apply sublist_length.
  - apply sublist_length, slice_sublist.
Qed.

End Ordering.

(** *** Reading after a read *)

Section ReadAfterRead.
Context `{Host}.
Implicit Types (w : World) (request : Request.t) (cs results : list obj).

(** A read leaves the state as it was or with the store's array sorted. *)
Lemma getConversations_after w request :
  (getConversations w request).1 = w
  ∨ (getConversations w request).1 = sorted_store w.
Proof.
  unfold getConversations.
  destruct (text_filter w (Request.searchTerm request) OfStore)
    as [results|e]; [|by left].
  destruct (folder_filter w (Request.folderId request) results);
    [by right | by left].
Qed.

Lemma title_matches_throw (lowerTerm : string) (c : obj) (e : string) :
  title_matches lowerTerm c = Throw e
  → e = "c.title.toLowerCase is not a function".
Proof.
  unfold title_matches. destruct (field "title" c) as [t|]; [|done].
  destruct (truthy (Some t)); [|done].
  destruct t; simpl; first [done | by intros [= <-]].
Qed.

Lemma filterM_total {A : Type} (p : A → completion bool) (l : list A) :
  Forall (λ x, ∃ b, p x = Normal b) l →
  filterM p l
  = Normal (List.filter
              (λ x, match p x with Normal true => true | _ => false end) l).
Proof.
  induction 1 as [|x l [b Hb] _ IH]; simpl; [done|].
  rewrite Hb, IH. by destruct b.
Qed.

Lemma filterM_throws {A : Type} (p : A → completion bool) (l : list A) :
  Exists (λ x, ∃ e, p x = Throw e) l →
  ∃ e x, x ∈ l ∧ p x = Throw e ∧ filterM p l = Throw e.
Proof.
  induction l as [|y l IH]; intros Hex; [by apply Exists_nil in Hex|].
  simpl. destruct (p y) as [b|e] eqn:Ey.
  - apply Exists_cons in Hex as [[e He]|Hex]; [congruence|].
    destruct (IH Hex) as (e & x & Hx & Hpx & ->).
    exists e, x. split_and!; [by right | done..].
  - exists e, y. split_and!; [by left | done..].
Qed.

Lemma throws_or_total {A : Type} (p : A → completion bool) (l : list A) :
  Exists (λ x, ∃ e, p x = Throw e) l ∨ Forall (λ x, ∃ b, p x = Normal b) l.
Proof.
  induction l as [|y l [IH|IH]].
  - right. constructor.
  - left. by right.
  - destruct (p y) as [b|e] eqn:Ey.
    + right. constructor; [by exists b | done].
    + left. left. by exists e.
Qed.

(** On a store whose conversations are all timed, the text filter sees
    the sorted array as it sees the original one, sorted. *)
Lemma filterM_title_sorted (lowerTerm : string) cs :
  Forall timed cs →
  filterM (title_matches lowerTerm) (sort by_time_desc cs)
  = match filterM (title_matches lowerTerm) cs with
    | Throw e => Throw e
    | Normal l => Normal (sort by_time_desc l)
    end.
Proof.
  intros Hcs.
  destruct (throws_or_total (title_matches lowerTerm) cs) as [Hex|Hall].
  - assert (Exists (λ x, ∃ e, title_matches lowerTerm x = Throw e)
                   (sort by_time_desc cs)) as Hex'
      by by rewrite sort_Permutation.
    destruct (filterM_throws _ _ Hex) as (e & x & _ & Hx & ->).
    destruct (filterM_throws _ _ Hex') as (e' & x' & _ & Hx' & ->).
    apply title_matches_throw in Hx as ->.
    by apply title_matches_throw in Hx' as ->.
  - assert (Forall (λ x, ∃ b, title_matches lowerTerm x = Normal b)
                   (sort by_time_desc cs)) as Hall'
      by by rewrite sort_Permutation.
    rewrite !filterM_total by done. f_equal. symmetry.
    by apply (sort_filter by_time_desc effective_time timed by_time_desc_key).
Qed.

Lemma filter_sorted (p : obj → bool) cs :
  Forall timed cs →
  List.filter p (sort by_time_desc cs) = sort by_time_desc (List.filter p cs).
Proof.
  intros Hcs. symmetry.
  by apply (sort_filter by_time_desc effective_time timed by_time_desc_key).
Qed.

Lemma sort_sort cs :
  Forall timed cs →
  sort by_time_desc (sort by_time_desc cs) = sort by_time_desc cs.
Proof.
  intros Hcs.
  apply (sort_fixed by_time_desc effective_time timed by_time_desc_key).
  - by apply sort_valid.
  - by apply (sort_sorted by_time_desc effective_time timed by_time_desc_key).
Qed.

Lemma filterM_timed {A : Type} (P : A → Prop) (p : A → completion bool)
    (l r : list A) :
  Forall P l → filterM p l = Normal r → Forall P r.
Proof.
  rewrite !Forall_forall. intros Hl Hr x Hx.
  apply Hl. eapply elem_of_sublist; [exact Hx | by eapply filterM_sublist].
Qed.

(** What is selected does not depend on whether the store's array has
    been sorted in place. *)
Lemma selected_sorted_store w request :
  Forall timed (conversations (localDB w)) →
  selected (sorted_store w) request = selected w request.
Proof.
  intros Hcs. unfold selected, text_filter, sorted_store.
  destruct (Request.searchTerm request) as [term|]; cycle 1.
  { unfold folder_filter. simpl. destruct (truthy _ && _); cycle 1.
    { simpl. by rewrite sort_sort. }
    destruct (find _ _); simpl.
    { by rewrite filter_sorted, sort_sort by (done || by apply Forall_List_filter). }
    destruct (strict_eq _ _); simpl; [|by rewrite sort_sort].
    by rewrite filter_sorted, sort_sort by (done || by apply Forall_List_filter). }
  destruct (truthy (Some term)); cycle 1.
  { unfold folder_filter. simpl. destruct (truthy _ && _); cycle 1.
    { simpl. by rewrite sort_sort. }
    destruct (find _ _); simpl.
    { by rewrite filter_sorted, sort_sort by (done || by apply Forall_List_filter). }
    destruct (strict_eq _ _); simpl; [|by rewrite sort_sort].
    by rewrite filter_sorted, sort_sort by (done || by apply Forall_List_filter). }
  destruct (lower "searchTerm" term) as [lowerTerm|e]; [|done].
  simpl. rewrite filterM_title_sorted by done.
  destruct (filterM (title_matches lowerTerm) (conversations (localDB w)))
    as [l|e] eqn:Ef; [|done].
  pose proof (filterM_timed _ _ _ _ Hcs Ef) as Hl.
  unfold folder_filter. simpl. destruct (truthy _ && _); cycle 1.
  { simpl. by rewrite sort_sort. }
  destruct (find _ _); simpl.
  { by rewrite filter_sorted, sort_sort by (done || by apply Forall_List_filter). }
  destruct (strict_eq _ _); simpl; [|by rewrite sort_sort].
  by rewrite filter_sorted, sort_sort by (done || by apply Forall_List_filter).
Qed.

(** X5. On a store whose conversations are all timed, the in-place sort
    of a read is not visible to later reads: whatever request was served
    first, a second request gets the answer it would have got on the
    original state. *)
Theorem getConversations_read_after_read w request request' :
  Forall timed (conversations (localDB w)) →
  (getConversations (getConversations w request).1 request').2
  = (getConversations w request').2.
Proof.
  intros Hcs.
  destruct (getConversations_after w request) as [-> | ->]; [done|].
  by rewrite !getConversations_selected, selected_sorted_store.
Qed.

End ReadAfterRead.

(** *** Search, folders and what a read writes *)

Section Filters.
Context `{Host}.
Implicit Types (w : World) (request : Request.t) (cs results : list obj).

Lemma truthy_string (s : string) : truthy (Some (VStr s)) = true ↔ s ≠ "".
Proof.
  simpl. rewrite negb_true_iff. split.
  - intros E ->. by rewrite String.eqb_refl in E.
  - intros Hs. by apply String.eqb_neq.
Qed.

Lemma title_matches_true (term : string) (c : obj) :
  title_matches (toLowerCase term) c = Normal true ↔ title_contains term c.
Proof.
  unfold title_matches, title_contains. split.
  - destruct (field "title" c) as [t|]; [|done].
    destruct (truthy (Some t)) eqn:Et; [|done].
    destruct t as [| | |title|]; simpl; try done.
    intros [= Hi]. exists title. split_and!; [done | by apply truthy_string | done].
  - intros (title & -> & Ht%truthy_string & Hi). rewrite Ht. simpl. by rewrite Hi.
Qed.

(** X6. Search.  With a non-empty string as search term, whatever is
    selected is a stored conversation whose title is a non-empty string
    that contains the term, case-insensitively -- so a conversation
    without a title is never returned -- and when no folder is asked for,
    every such stored conversation is selected. *)
Theorem getConversations_search w request (term : string) results :
  Request.searchTerm request = Some (VStr term) →
  term ≠ "" →
  selected w request = Normal results →
  (∀ c, c ∈ results → c ∈ conversations (localDB w) ∧ title_contains term c)
  ∧ (truthy (Request.folderId request) = false →
     ∀ c, c ∈ conversations (localDB w) → title_contains term c → c ∈ results).
Proof.
  intros Hterm Hne%truthy_string Hsel. unfold selected, text_filter in Hsel.
  rewrite Hterm, Hne in Hsel. simpl in Hsel.
  destruct (filterM _ _) as [l|e] eqn:Ef; [|done].
  assert (∀ c, c ∈ l → c ∈ conversations (localDB w) ∧ title_contains term c)
    as Hl.
  { intros c Hc. destruct (filterM_elem_of _ _ _ Ef c Hc) as [? Ht].
    split; [done | by apply title_matches_true]. }
  split.
  - intros c Hc. apply Hl. revert Hsel. unfold folder_filter.
    destruct (truthy _ && _); cycle 1.
    { simpl. intros [= <-]. by rewrite sort_Permutation in Hc. }
    destruct (find _ _); simpl.
    { intros [= <-]. rewrite sort_Permutation in Hc.
      by apply elem_of_List_filter in Hc as [Hc _]. }
    destruct (strict_eq _ _); simpl; intros [= <-];
      rewrite sort_Permutation in Hc; [|done].
    by apply elem_of_List_filter in Hc as [Hc _].
  - intros Hfid c Hc Ht. unfold folder_filter in Hsel.
    rewrite Hfid in Hsel. simpl in Hsel. injection Hsel as <-.
    rewrite sort_Permutation.
    assert (Forall (λ x, ∃ b, title_matches (toLowerCase term) x = Normal b)
                   (conversations (localDB w))) as Hall.
    { destruct (throws_or_total (title_matches (toLowerCase term))
                  (conversations (localDB w))) as [Hex|Hall]; [|done].
      destruct (filterM_throws _ _ Hex) as (e & x & _ & _ & Hthrow).
      congruence. }
    rewrite filterM_total in Ef by done. injection Ef as <-.
    apply elem_of_List_filter. split; [done|].
    apply title_matches_true in Ht. by rewrite Ht.
Qed.

(** X7. A search term that is truthy but not a string (a number, [true],
    an array) has no [toLowerCase]: the request is answered with the
    failure that carries the [TypeError] message, and the state is left
    as it was. *)
Theorem handleMessage_bad_searchTerm w request (term : value) :
  action_of request = Some "getConversations" →
  Request.searchTerm request = Some term →
  truthy (Some term) = true →
  (∀ s, term ≠ VStr s) →
  handleMessage w request
  = (w, Failure "searchTerm.toLowerCase is not a function").
Proof.
  intros Ha Hterm Ht Hns. unfold handleMessage. rewrite Ha.
  change (Controller (Some "getConversations"))
    with (Some (Method getConversations)).
  unfold call, getConversations, text_filter. rewrite Hterm, Ht.
  destruct term; try done. by destruct (Hns s).
Qed.

(** X8. One stored conversation whose title is truthy but not a string
    makes every search fail: whatever non-empty string is searched for,
    the answer is the failure that carries the [TypeError] message, and
    the state is left as it was. *)
Theorem handleMessage_bad_title w request (term : string) (c : obj) (t : value) :
  action_of request = Some "getConversations" →
  Request.searchTerm request = Some (VStr term) →
  term ≠ "" →
  c ∈ conversations (localDB w) →
  field "title" c = Some t →
  truthy (Some t) = true →
  (∀ s, t ≠ VStr s) →
  handleMessage w request
  = (w, Failure "c.title.toLowerCase is not a function").
Proof.
  intros Ha Hterm Hne%truthy_string Hc Ht Htt Hns.
  unfold handleMessage. rewrite Ha.
  change (Controller (Some "getConversations"))
    with (Some (Method getConversations)).
  unfold call, getConversations, text_filter. rewrite Hterm, Hne. simpl.
  assert (Exists (λ x, ∃ e, title_matches (toLowerCase term) x = Throw e)
                 (conversations (localDB w))) as Hex.
  { apply Exists_exists. exists c. split; [done|].
    unfold title_matches. rewrite Ht, Htt.
    destruct t; simpl; eauto. by destruct (Hns s). }
  destruct (filterM_throws _ _ Hex) as (e & x & _ & Hx & ->).
  by apply title_matches_throw in Hx as ->.
Qed.

Lemma find_folder_first (k : slot) (fs1 fs2 : list Folder) (f : Folder) :
  Forall (λ g, folder_id g ≠ k) fs1 → folder_id f = k →
  find (λ g, strict_eq (folder_id g) k) (fs1 ++ f :: fs2) = Some f.
Proof.
  intros Hfs Hf. induction Hfs as [|g fs1 Hg _ IH]; simpl.
  - by rewrite Hf, strict_eq_refl.
  - by apply strict_eq_false in Hg as ->.
Qed.

Lemma Set_has_elem_of (allowed : list value) (k : slot) :
  Set_has allowed k = bool_decide (k ∈ Some <$> allowed).
Proof.
  unfold Set_has. destruct k as [v|].
  - apply bool_decide_ext. rewrite list_elem_of_fmap. split.
    + intros Hv. by exists v.
    + by intros (v' & [= ->] & Hv).
  - symmetry. apply bool_decide_eq_false. rewrite list_elem_of_fmap.
    by intros (v & ? & _).
Qed.

(** X9. Folder filter.  When [folderId] is the identity of a folder (the
    first one with that identity, if several have it) and no search term
    is given, the request is answered with exactly the stored
    conversations whose [id] is listed in the folder's [conversationIds]:
    the response pages through a rearrangement of them, with their number
    as the total -- through them most recent first when every stored
    conversation has a valid time.  Listed identities without a
    conversation are ignored, a folder without [conversationIds] selects
    nothing, and the state is left as it was. *)
Theorem getConversations_folder w request (fs1 fs2 : list Folder) (f : Folder) :
  truthy (Request.folderId request) = true →
  Request.folderId request ≠ Some (VStr "all") →
  truthy (Request.searchTerm request) = false →
  folders (localDB w) = fs1 ++ f :: fs2 →
  Forall (λ g, folder_id g ≠ Request.folderId request) fs1 →
  folder_id f = Request.folderId request →
  let listed :=
    List.filter
      (λ c, bool_decide
              (field "id" c ∈ Some <$> default [] (conversationIds f)))
      (conversations (localDB w)) in
  (∃ results,
      results ≡ₚ listed
      ∧ pages_through request results (getConversations w request).2)
  ∧ (Forall timed (conversations (localDB w)) →
     pages_through request (sort by_time_desc listed)
                   (getConversations w request).2)
  ∧ (getConversations w request).1 = w.
Proof.
  intros Ht Hall Hterm Hfs Hfs1 Hf listed.
  assert (pages_through request (sort by_time_desc listed)
                        (getConversations w request).2
          ∧ (getConversations w request).1 = w) as [Hpages Hsame].
  { subst listed. unfold pages_through, getConversations.
    rewrite text_filter_falsy by done. unfold folder_filter.
    rewrite Ht. apply strict_eq_false in Hall as ->. simpl.
    rewrite Hfs, (find_folder_first _ _ _ _ Hfs1 Hf). simpl.
    split; [|done].
    rewrite (List.filter_ext _
               (λ c, bool_decide
                       (field "id" c
                        ∈ Some <$> default [] (conversationIds f))));
      [done|].
    intros c. apply Set_has_elem_of. }
  split_and!; [|done..].
  exists (sort by_time_desc listed). split; [apply sort_Permutation | done].
Qed.

(** X10. The identity ["all"], like an empty or otherwise falsy
    [folderId], selects no folder -- not even a stored folder that has
    this identity: the request is served exactly as without [folderId]. *)
Theorem getConversations_all_folders w request :
  Request.folderId request = Some (VStr "all")
  ∨ truthy (Request.folderId request) = false →
  getConversations w request = getConversations w (without_folderId request).
Proof.
  intros Hfid. unfold getConversations. simpl.
  destruct (text_filter w (Request.searchTerm request) OfStore)
    as [results|e]; [|done].
  assert (folder_filter w (Request.folderId request) results = results) as ->;
    [|done].
  unfold folder_filter. destruct Hfid as [-> | ->]; [|done].
  by rewrite strict_eq_refl.
Qed.

Lemma find_folder_Some w (folderId : slot) :
  folder_exists w folderId →
  is_Some (find (λ f, strict_eq (folder_id f) folderId) (folders (localDB w))).
Proof.
  unfold folder_exists. induction 1 as [f fs Hf|f fs _ IH]; simpl.
  - rewrite Hf, strict_eq_refl. by eexists.
  - by destruct (strict_eq _ _).
Qed.

(** X11. What a read writes.  As soon as a filter applies -- a truthy
    search term, or a [folderId] that selects a folder or the trash --
    [getConversations] leaves the whole state as it was.  Otherwise, and
    only then, it may leave the store's own array in another order:
    nothing else changes and no conversation is added or dropped; and when
    every stored conversation has a valid time, the array is left sorted
    most recent first. *)
Theorem getConversations_writes w request :
  let folderId := Request.folderId request in
  (truthy (Request.searchTerm request) = true
   ∨ truthy folderId = true ∧ folderId ≠ Some (VStr "all")
     ∧ (folder_exists w folderId ∨ folderId = Some (VStr "trash")) →
   (getConversations w request).1 = w)
  ∧ (truthy (Request.searchTerm request) = false →
     truthy folderId = false ∨ folderId = Some (VStr "all")
     ∨ ¬ folder_exists w folderId ∧ folderId ≠ Some (VStr "trash") →
     (∃ cs, cs ≡ₚ conversations (localDB w)
            ∧ (getConversations w request).1
              = set_localDB (set_conversations cs (localDB w)) w)
     ∧ (Forall timed (conversations (localDB w)) →
        (getConversations w request).1 = sorted_store w)).
Proof.
  intros folderId. subst folderId. split.
  - intros [Hterm | (Ht & Hall & Hsel)].
    + by apply getConversations_filtered_pure.
    + unfold getConversations.
      destruct (text_filter w (Request.searchTerm request) OfStore)
        as [results|e]; [|done].
      unfold folder_filter. rewrite Ht.
      apply strict_eq_false in Hall as ->. simpl.
      destruct Hsel as [[f ->]%find_folder_Some | Htrash]; [done|].
      destruct (find _ _); [done|]. by rewrite Htrash, strict_eq_refl.
  - intros Hterm Hnone.
    assert ((getConversations w request).1 = sorted_store w) as ->.
    { unfold getConversations. rewrite text_filter_falsy by done.
      assert (folder_filter w (Request.folderId request) OfStore = OfStore)
        as ->; [|done].
      destruct Hnone as [Hf | [Hall | [Hno Htrash]]].
      + unfold folder_filter. by rewrite Hf.
      + unfold folder_filter. by rewrite Hall, strict_eq_refl, andb_false_r.
      + by apply folder_filter_unknown. }
    split; [|done].
    exists (sort by_time_desc (conversations (localDB w))).
    split; [apply sort_Permutation | done].
Qed.

End Filters.

(** ** More on the merge engine *)

Section MergeMore.
Implicit Types (k : slot) (n c v : obj) (m : JSMap.t) (batch cs : list obj)
  (w : World).

Lemma keys_of_entries_elem k (es : list (slot * obj)) :
  k ∈ JSMap.keys (JSMap.of_entries es) ↔ k ∈ es.*1.
Proof.
  split.
  - intros [v Hv]%get_is_Some.
    apply get_fold_set_inv in Hv as [Hin|?]; [|done].
    apply list_elem_of_fmap. by exists (k, v).
  - intros Hk. apply keys_fold_set. by left.
Qed.

Lemma keys_fold_elem k batch m :
  k ∈ JSMap.keys (fold_left upsert_map batch m)
  ↔ k ∈ JSMap.keys m ∨ k ∈ ids batch.
Proof.
  split.
  - intros [v Hv]%get_is_Some. rewrite get_fold in Hv.
    case_bool_decide; [by right|]. left. apply get_is_Some. by eexists.
  - intros [?|?]; [by apply keys_fold_mono | by apply keys_fold_batch].
Qed.

Lemma keys_merged_elem k cs batch :
  k ∈ JSMap.keys (merged_map cs batch) ↔ k ∈ ids cs ++ ids batch.
Proof.
  unfold merged_map.
  rewrite keys_fold_elem, keys_of_entries_elem, elem_of_app.
  fold (JSMap.keys (entries cs)). by rewrite keys_entries.
Qed.

(** X12. Whatever the store held -- even several conversations under
    one [id] -- after a merge of a non-empty batch it holds at most one
    conversation per [id]. *)
Theorem addConversations_repairs w n batch :
  unique_ids
    (conversations_after (addConversations w (batch_request (n :: batch)))).
Proof.
  rewrite conversations_after_add. simpl.
  unfold unique_ids. rewrite ids_values by apply keyed_merged.
  apply NoDup_merged.
Qed.

(** X13. The [count] returned for a non-empty batch is the number of
    distinct identities among the stored conversations and the batch. *)
Theorem addConversations_count w n batch :
  (addConversations w (batch_request (n :: batch))).2
  = Normal
      (Count (length (remove_dups
                        (ids (conversations (localDB w)) ++ ids (n :: batch))))).
Proof.
  rewrite addConversations_unfold. simpl. do 2 f_equal.
  unfold JSMap.values. rewrite length_fmap.
  rewrite <- (length_fmap fst). fold (JSMap.keys (merged_map
    (conversations (localDB w)) (n :: batch))).
  apply Permutation_length, NoDup_Permutation.
  - apply NoDup_merged.
  - apply NoDup_remove_dups.
  - intros k. by rewrite keys_merged_elem, elem_of_remove_dups.
Qed.

Lemma lookup_get m (i : nat) k v :
  NoDup (JSMap.keys m) → m !! i = Some (k, v) → JSMap.get k m = Some v.
Proof.
  revert i. induction m as [|[k' v'] m IH]; intros i Hnd; [done|].
  apply NoDup_cons in Hnd as [Hk' Hnd]. destruct i as [|i]; simpl.
  - intros [= -> ->]. by rewrite strict_eq_refl.
  - intros Hi. destruct (strict_eq k' k) eqn:E; [|by eapply IH].
    apply strict_eq_true in E as ->. destruct Hk'.
    apply list_elem_of_fmap. exists (k, v). split; [done|].
    by eapply list_elem_of_lookup_2.
Qed.

Lemma lookup_set m (i : nat) k v k' v' :
  NoDup (JSMap.keys m) → m !! i = Some (k, v) →
  JSMap.set k' v' m !! i = Some (k, if strict_eq k k' then v' else v).
Proof.
  revert i. induction m as [|[k0 v0] m IH]; intros i Hnd; [done|].
  apply NoDup_cons in Hnd as [Hk0 Hnd]. destruct i as [|i]; simpl.
  - intros [= -> ->]. by destruct (strict_eq k k').
  - intros Hi. destruct (strict_eq k0 k') eqn:E; simpl; [|by apply IH].
    apply strict_eq_true in E as ->.
    assert (k ≠ k') as Hne.
    { intros ->. destruct Hk0. apply list_elem_of_fmap. exists (k', v).
      split; [done|]. by eapply list_elem_of_lookup_2. }
    by apply strict_eq_false in Hne as ->.
Qed.

Lemma lookup_upsert m (i : nat) k v n :
  NoDup (JSMap.keys m) → m !! i = Some (k, v) →
  upsert_map m n !! i
  = Some (k, if strict_eq (field "id" n) k then spread v n else v).
Proof.
  intros Hnd Hi. rewrite upsert_map_eq, (lookup_set _ _ _ _ _ _ Hnd Hi).
  destruct (decide (field "id" n = k)) as [->|Hne].
  - by rewrite strict_eq_refl, (lookup_get _ _ _ _ Hnd Hi).
  - apply strict_eq_false in Hne as Hne1. rewrite Hne1.
    assert (k ≠ field "id" n) as Hne2 by done.
    by apply strict_eq_false in Hne2 as ->.
Qed.

Lemma lookup_fold batch m (i : nat) k v :
  NoDup (JSMap.keys m) → m !! i = Some (k, v) →
  fold_left upsert_map batch m !! i = Some (k, merge_all k batch v).
Proof.
  revert m v. induction batch as [|n batch IH]; intros m v Hnd Hi; [done|].
  cbn [fold_left]. rewrite merge_all_cons.
  apply IH; [by apply NoDup_keys_upsert | by apply lookup_upsert].
Qed.

(** X14. A merge never moves, drops or strips a conversation.  On a
    store with at most one conversation per [id], the conversation at
    position [i] stays at position [i]; it becomes the stored record with
    the batch's records of its [id] merged into it in input order, so it
    keeps every field it had, and it is left exactly as it was when the
    batch has no record with its [id]. *)
Theorem addConversations_in_place w batch (i : nat) c :
  unique_ids (conversations (localDB w)) →
  conversations (localDB w) !! i = Some c →
  let after :=
    conversations_after (addConversations w (batch_request batch)) in
  after !! i = Some (merge_all (field "id" c) batch c)
  ∧ (∀ f, is_Some (c !! f) →
          is_Some (merge_all (field "id" c) batch c !! f))
  ∧ (field "id" c ∉ ids batch → after !! i = Some c).
Proof.
  intros Hw Hi after.
  assert (after !! i = Some (merge_all (field "id" c) batch c)) as Hafter.
  { subst after. rewrite conversations_after_add.
    change (default [] (Request.conversations (batch_request batch)))
      with batch.
    destruct batch as [|n batch]; [done|]. cbv beta iota.
    unfold JSMap.values, merged_map. rewrite list_lookup_fmap.
    rewrite of_entries_unique by done.
    rewrite (lookup_fold _ _ i (field "id" c) c); [done| |].
    - by rewrite keys_entries.
    - unfold entries. rewrite (list_lookup_fmap (λ c : obj, (field "id" c, c))).
      by rewrite Hi. }
  split_and!; [done| |].
  - intros f [x Hx]. rewrite merge_all_union, lookup_union.
    rewrite Hx. by destruct (merge_all _ _ ∅ !! f).
  - intros Hid. by rewrite Hafter, merge_all_other.
Qed.

(** X15. A request without [conversations], or with an empty list,
    changes nothing at all -- no save is scheduled -- and reports the
    current size; every non-empty batch schedules a save, also one that
    changes no conversation. *)
Theorem addConversations_empty_batch w (request : Request.t) :
  let batch := default [] (Request.conversations request) in
  (batch = [] →
   addConversations w request
   = (w, Normal (Count (length (conversations (localDB w))))))
  ∧ (batch ≠ [] → saveTimeout (addConversations w request).1 = true).
Proof.
  intros batch. rewrite addConversations_unfold. fold batch. cbv zeta.
  split; intros Hb.
  - by rewrite Hb.
  - by rewrite bool_decide_eq_true_2.
Qed.

End MergeMore.

(** ** More on prompts *)

Section PromptsMore.
Context `{Host}.
Implicit Types (w : World) (request : Request.t) (p stored : loc) (k : slot).

Lemma List_filter_all {A : Type} (q : A → bool) (l : list A) :
  (∀ x, x ∈ l → q x = true) → List.filter q l = l.
Proof.
  induction l as [|y l IH]; intros Hq; simpl; [done|].
  rewrite Hq by by left. f_equal. apply IH. intros x Hx. apply Hq. by right.
Qed.

(** X16. [deletePrompt] always succeeds and schedules a save.  It
    removes exactly the stored prompts whose [id] is the requested one,
    keeps the others in their order and touches no prompt object; when no
    prompt has that [id] the collection is left as it was. *)
Theorem deletePrompt_removes w request :
  let w' := (deletePrompt w request).1 in
  let same_id p :=
    field "id" (object_at (heap w) p) = Request.id request in
  (deletePrompt w request).2 = Normal Success
  ∧ saveTimeout w' = true
  ∧ heap w' = heap w
  ∧ (prompts (localDB w') `sublist_of` prompts (localDB w))
  ∧ (∀ p, p ∈ prompts (localDB w')
          ↔ p ∈ prompts (localDB w) ∧ ¬ same_id p)
  ∧ (Request.id request ∉ prompt_ids w')
  ∧ (Request.id request ∉ prompt_ids w →
     prompts (localDB w') = prompts (localDB w)).
Proof.
  intros w' same_id. subst w' same_id. unfold deletePrompt. simpl.
  assert (∀ p, p ∈ List.filter
                     (λ p, negb (strict_eq (field "id" (object_at (heap w) p))
                                           (Request.id request)))
                     (prompts (localDB w))
               ↔ p ∈ prompts (localDB w)
                 ∧ field "id" (object_at (heap w) p) ≠ Request.id request)
    as Hmem.
  { intros p. rewrite elem_of_List_filter, negb_true_iff.
    split; intros [? ?]; (split; [done|]); by apply strict_eq_false. }
  split_and!; [done..| apply List_filter_sublist | exact Hmem | |].
  - unfold prompt_ids. simpl. intros (p & Hid & Hp)%list_elem_of_fmap.
    apply Hmem in Hp as [_ Hne]. by destruct Hne.
  - intros Hno. apply List_filter_all. intros p Hp.
    apply negb_true_iff, strict_eq_false. intros Hid. apply Hno.
    unfold prompt_ids. apply list_elem_of_fmap. by exists p.
Qed.

Lemma findIndex_fmap {A B : Type} (q : B → bool) (f : A → B) (l : list A) :
  findIndex q (f <$> l) = findIndex (λ x, q (f x)) l.
Proof.
  induction l as [|y l IH]; [done|].
  cbn [fmap list_fmap findIndex]. destruct (q (f y)); [done|].
  by rewrite <- IH.
Qed.

Lemma object_at_insert_ne (h : gmap loc obj) (a p : loc) (o : obj) :
  a ≠ p → object_at (<[a := o]> h) p = object_at h p.
Proof. intros Hne. unfold object_at. by rewrite lookup_insert_ne. Qed.

Lemma object_at_insert (h : gmap loc obj) (a : loc) (o : obj) :
  object_at (<[a := o]> h) a = o.
Proof. unfold object_at. by rewrite lookup_insert_eq. Qed.

Lemma allocated_not_fresh w p :
  prompts_allocated w → p ∈ prompts (localDB w) → fresh (dom (heap w)) ≠ p.
Proof.
  unfold prompts_allocated. rewrite Forall_forall.
  intros Halloc [o Ho]%Halloc <-. by rewrite fresh_not_allocated in Ho.
Qed.

(** The identities of the stored prompts after [savePrompt], given the
    identity [k] of the copy. *)
Lemma savePrompt_ids w request :
  prompts_allocated w →
  let w' := (savePrompt w request).1 in
  let stored : loc := fresh (dom (heap w)) in
  let k := field "id" (object_at (heap w') stored) in
  (savePrompt w request).2 = Normal (Saved stored)
  ∧ (∀ p, p ∈ prompts (localDB w) →
          object_at (heap w') p = object_at (heap w) p)
  ∧ match findIndex (λ x, strict_eq x k) (prompt_ids w) with
    | Some i => prompts (localDB w') = <[i := stored]> (prompts (localDB w))
    | None => prompts (localDB w') = prompts (localDB w) ++ [stored]
    end.
Proof.
  intros Halloc w' stored k. subst w' k.
  rewrite savePrompt_unfold. cbv zeta. simpl. fold stored.
  set (copied := if truthy _ then _ else _).
  rewrite object_at_insert.
  assert (∀ p, p ∈ prompts (localDB w) →
               object_at (<[stored := copied]> (heap w)) p
               = object_at (heap w) p) as Hold.
  { intros p Hp. apply object_at_insert_ne. by apply allocated_not_fresh. }
  split_and!; [done..|].
  assert (findIndex (λ x, strict_eq x (field "id" copied)) (prompt_ids w)
          = findIndex
              (λ p, strict_eq
                      (field "id" (object_at (<[stored:=copied]> (heap w)) p))
                      (field "id" copied))
              (prompts (localDB w))) as ->; [|by destruct (findIndex _ _)].
  unfold prompt_ids. rewrite findIndex_fmap. apply findIndex_ext.
  intros p Hp. simpl. by rewrite Hold.
Qed.

Lemma findIndex_lookup {A : Type} (q : A → bool) (l : list A) (i : nat) :
  findIndex q l = Some i → ∃ x, l !! i = Some x ∧ q x = true.
Proof. apply findIndex_Some. Qed.

Lemma findIndex_snoc {A : Type} (q : A → bool) (l : list A) (x : A) :
  findIndex q l = None → q x = true →
  findIndex q (l ++ [x]) = Some (length l).
Proof.
  induction l as [|y l IH]; simpl; intros Hn Hx; [by rewrite Hx|].
  destruct (q y); [done|].
  destruct (findIndex q l); [done|]. by rewrite IH.
Qed.

(** The identities of the stored prompts after [savePrompt]: the copy
    takes over an identity that is already there, or adds its own. *)
Lemma savePrompt_prompt_ids w request :
  prompts_allocated w →
  let w' := (savePrompt w request).1 in
  let k := field "id" (object_at (heap w') (fresh (dom (heap w)))) in
  prompt_ids w'
  = match findIndex (λ x, strict_eq x k) (prompt_ids w) with
    | Some _ => prompt_ids w
    | None => prompt_ids w ++ [k]
    end.
Proof.
  intros Halloc w' k.
  destruct (savePrompt_ids w request Halloc) as (_ & Hold & Hps).
  fold w' k in Hold, Hps.
  assert ((λ p, field "id" (object_at (heap w') p)) <$> prompts (localDB w)
          = prompt_ids w) as Hids.
  { unfold prompt_ids. apply list_fmap_ext. intros i p Hp.
    rewrite Hold; [done|]. by eapply list_elem_of_lookup_2. }
  unfold prompt_ids at 1.
  destruct (findIndex _ (prompt_ids w)) as [i|] eqn:E.
  - rewrite Hps, list_fmap_insert, Hids. fold k.
    destruct (findIndex_Some _ _ _ E) as (x & Hx & ->%strict_eq_true).
    by apply list_insert_id.
  - by rewrite Hps, fmap_app, Hids.
Qed.

(** X17. Saving a prompt under an identity that no stored prompt has and
    then deleting the prompts with that identity gives back the prompt
    collection as it was before the two calls. *)
Theorem savePrompt_then_deletePrompt w request :
  prompts_allocated w →
  let w1 := (savePrompt w request).1 in
  let k := field "id" (object_at (heap w1) (fresh (dom (heap w)))) in
  k ∉ prompt_ids w →
  prompts (localDB (deletePrompt w1 (delete_request k)).1)
  = prompts (localDB w).
Proof.
  intros Halloc w1 k Hk.
  destruct (savePrompt_ids w request Halloc) as (_ & Hold & Hps).
  fold w1 k in Hold, Hps.
  assert (findIndex (λ x, strict_eq x k) (prompt_ids w) = None) as E.
  { apply findIndex_None. intros x Hx. apply strict_eq_false. by intros ->. }
  rewrite E in Hps. unfold deletePrompt. simpl. rewrite Hps.
  rewrite List.filter_app. simpl. fold k. rewrite strict_eq_refl. simpl.
  rewrite app_nil_r. apply List_filter_all. intros p Hp.
  apply negb_true_iff, strict_eq_false. rewrite Hold by done.
  intros Hid. apply Hk. unfold prompt_ids. apply list_elem_of_fmap.
  by exists p.
Qed.

(** X18. Prompt identities stay unique: when no two stored prompts
    share an [id], none do after [savePrompt], and none do after
    [deletePrompt]. *)
Theorem prompt_ids_unique w request :
  prompts_allocated w →
  NoDup (prompt_ids w) →
  NoDup (prompt_ids (savePrompt w request).1)
  ∧ NoDup (prompt_ids (deletePrompt w request).1).
Proof.
  intros Halloc Hnd. split.
  - rewrite savePrompt_prompt_ids by done.
    destruct (findIndex _ (prompt_ids w)) as [i|] eqn:E; [done|].
    apply NoDup_app. split_and!; [done| |apply NoDup_singleton].
    intros x Hx ->%list_elem_of_singleton.
    rewrite findIndex_None in E. specialize (E _ Hx).
    by rewrite strict_eq_refl in E.
  - eapply sublist_NoDup; [exact Hnd|].
    unfold prompt_ids, deletePrompt. simpl.
    apply fmap_sublist, List_filter_sublist.
Qed.

(** X19. Saving the returned prompt again updates it in place.  When the
    stored copy has a truthy [id], a second [savePrompt] with that copy
    as input puts a new copy with the same fields at the position of the
    first one; the collection does not grow. *)
Theorem savePrompt_again w request :
  prompts_allocated w →
  let w1 := (savePrompt w request).1 in
  let stored1 : loc := fresh (dom (heap w)) in
  let w2 := (savePrompt w1 (prompt_request stored1)).1 in
  let stored2 : loc := fresh (dom (heap w1)) in
  truthy (field "id" (object_at (heap w1) stored1)) = true →
  (savePrompt w1 (prompt_request stored1)).2 = Normal (Saved stored2)
  ∧ object_at (heap w2) stored2 = object_at (heap w1) stored1
  ∧ length (prompts (localDB w2)) = length (prompts (localDB w1))
  ∧ ∃ i, prompts (localDB w1) !! i = Some stored1
         ∧ prompts (localDB w2) = <[i := stored2]> (prompts (localDB w1)).
Proof.
  intros Halloc w1 stored1 w2 stored2 Hk.
  pose proof (savePrompt_allocated w request Halloc) as Halloc1. fold w1 in Halloc1.
  destruct (savePrompt_ids w request Halloc) as (_ & Hold & Hps).
  pose proof (savePrompt_prompt_ids w request Halloc) as Hids.
  cbv zeta in Hids. fold w1 stored1 in Hold, Hps, Hids.
  set (k := field "id" (object_at (heap w1) stored1)) in *.
  destruct (savePrompt_ids w1 (prompt_request stored1) Halloc1)
    as (Hret & _ & Hps2).
  fold w2 stored2 in Hret, Hps2.
  assert (object_at (heap w2) stored2 = object_at (heap w1) stored1) as Hobj.
  { subst w2. rewrite savePrompt_unfold. cbv zeta. simpl. fold stored2.
    rewrite object_at_insert. unfold input_prompt. simpl. fold k. by rewrite Hk. }
  rewrite Hobj in Hps2. fold k in Hps2.
  assert (∃ i, prompts (localDB w1) !! i = Some stored1
               ∧ findIndex (λ x, strict_eq x k) (prompt_ids w1) = Some i)
    as (i & Hi & Ei).
  { rewrite Hids.
    destruct (findIndex (λ x, strict_eq x k) (prompt_ids w)) as [i|] eqn:E.
    - exists i. split; [|done]. rewrite Hps.
      apply list_lookup_insert_eq.
      destruct (findIndex_Some _ _ _ E) as (x & Hx & _).
      apply lookup_lt_Some in Hx. unfold prompt_ids in Hx.
      by rewrite length_fmap in Hx.
    - exists (length (prompts (localDB w))). split.
      + rewrite Hps. by apply list_lookup_middle.
      + rewrite findIndex_snoc; [|done|apply strict_eq_refl].
        unfold prompt_ids. by rewrite length_fmap. }
  rewrite Ei in Hps2. split_and!; [done..| |].
  - by rewrite Hps2, length_insert.
  - by exists i.
Qed.

(** X20. The earlier revision of [savePrompt] stores the caller's own
    object: a prompt that arrives without a truthy [id] gets the generated
    identifier written into it, and the object the store then holds is
    the caller's. *)
Theorem legacy_savePrompt_writes w request p (o : obj) :
  Request.prompt request = Some p →
  heap w !! p = Some o →
  truthy (field "id" o) = false →
  let w' := (Legacy.savePrompt w request).1 in
  (Legacy.savePrompt w request).2 = Normal (Saved p)
  ∧ heap w' !! p = Some (<["id" := VStr (randomUUID (drawn w))]> o)
  ∧ p ∈ prompts (localDB w').
Proof.
  intros Hp Ho Hid w'. subst w'. unfold Legacy.savePrompt.
  assert (object_at (heap w) p = o) as Hobj
    by (unfold object_at; by rewrite Ho).
  rewrite Hp, Hobj, Hid. simpl.
  split_and!; [done | by rewrite lookup_insert_eq |].
  destruct (findIndex _ _) as [i|] eqn:E.
  - destruct (findIndex_Some _ _ _ E) as (q & Hq & _).
    apply list_elem_of_lookup. exists i.
    apply list_lookup_insert_eq. by eapply lookup_lt_Some.
  - apply elem_of_app. right. by left.
Qed.

End PromptsMore.

(** ** More on the dispatch gateway *)

Section GatewayMore.
Context `{Host}.
Implicit Types (w : World) (request : Request.t) (worldAt : nat → World).

Lemma poll_cases worldAt request (remaining retries : nat) :
  (∃ i, (retries ≤ i < retries + remaining)%nat
        ∧ isDBReady (worldAt i) = true
        ∧ poll worldAt request retries remaining
          = handleMessage (worldAt i) request)
  ∨ poll worldAt request retries remaining
    = (worldAt (retries + remaining)%nat,
       Failure "Database initialization timeout").
Proof.
  revert retries. induction remaining as [|remaining IH]; intros retries.
  - right. cbn [poll]. by rewrite Nat.add_0_r.
  - cbn [poll]. destruct (isDBReady (worldAt retries)) eqn:E.
    + left. exists retries. split_and!; first [done | lia].
    + destruct (IH (S retries)) as [(i & Hi & Hr & Hp)| Hp].
      * left. exists i. split_and!; first [done | lia].
      * right. rewrite Hp. by rewrite Nat.add_succ_r.
Qed.

(** X21. The readiness gate, for every request.  A request is handled
    in the state of the first of the ten polls that finds the store
    ready -- at once when it is ready on arrival -- and is answered with
    the initialization timeout failure when none does; it is never
    handled on a store that is not ready. *)
Theorem onMessage_first_ready worldAt request :
  (∀ i, (i < maxRetries)%nat →
        isDBReady (worldAt i) = true →
        (∀ j, (j < i)%nat → isDBReady (worldAt j) = false) →
        onMessage worldAt request = handleMessage (worldAt i) request)
  ∧ ((∀ j, (j < maxRetries)%nat → isDBReady (worldAt j) = false) →
     onMessage worldAt request
     = (worldAt maxRetries, Failure "Database initialization timeout"))
  ∧ ((∃ i, isDBReady (worldAt i) = true
           ∧ onMessage worldAt request = handleMessage (worldAt i) request)
     ∨ onMessage worldAt request
       = (worldAt maxRetries, Failure "Database initialization timeout")).
Proof.
  split_and!.
  - intros i Hi Hr Hno. unfold onMessage.
    destruct (isDBReady (worldAt 0%nat)) eqn:E0; cbn [negb].
    + destruct i as [|i]; [done|]. rewrite Hno in E0 by lia. done.
    + apply poll_ready; [lia | done |]. intros j Hj. apply Hno. lia.
  - intros Hno. unfold onMessage. rewrite Hno by (unfold maxRetries; lia).
    cbn [negb]. rewrite poll_timeout; [done|].
    intros j Hj. apply Hno. lia.
  - unfold onMessage. destruct (isDBReady (worldAt 0%nat)) eqn:E0; cbn [negb].
    + left. by exists 0%nat.
    + destruct (poll_cases worldAt request maxRetries 0)
        as [(i & _ & Hr & Hp)|Hp]; [left; by exists i | by right].
Qed.

Lemma assoc_None {A : Type} (key : string) (table : list (string * A)) :
  assoc key table = None ↔ key ∉ table.*1.
Proof.
  induction table as [|[k x] table IH]; simpl.
  - split; [intros _; apply not_elem_of_nil | done].
  - destruct (String.eqb k key) eqn:E.
    + apply String.eqb_eq in E as ->. split; [done|].
      intros []. by left.
    + apply String.eqb_neq in E. rewrite IH, not_elem_of_cons.
      split; [done | by intros [_ ?]].
Qed.

Lemma assoc_Some {A : Type} (key : string) (table : list (string * A)) (x : A) :
  assoc key table = Some x → (key, x) ∈ table.
Proof.
  induction table as [|[k y] table IH]; simpl; [done|].
  destruct (String.eqb k key) eqn:E.
  - apply String.eqb_eq in E as ->. intros [= ->]. by left.
  - intros ?%IH. by right.
Qed.

(** X22. An action that names none of the seven controllers and none of
    the twelve members of [Object.prototype], and is not ["ping"] -- also
    a request with neither [type] nor [action] -- is answered with
    [{ success: false, error: "Unknown action" }]; the state is left as
    it was. *)
Theorem handleMessage_unknown_action w request :
  property_key (action_of request) ∉ Controller_names →
  action_of request ≠ Some "ping" →
  handleMessage w request = (w, Failure "Unknown action").
Proof.
  unfold Controller_names. rewrite not_elem_of_app. intros [Hown Hproto] Hping.
  apply handleMessage_unknown; [|done].
  unfold Controller. apply assoc_None in Hown as ->.
  by apply assoc_None.
Qed.

Lemma preserved_refl w : preserved w w.
Proof. by repeat split. Qed.

Lemma preserved_getConversations w request :
  preserved w (getConversations w request).1.
Proof.
  destruct (getConversations_after w request) as [-> | ->];
    [apply preserved_refl | by repeat split].
Qed.

Lemma preserved_addConversations w request :
  preserved w (addConversations w request).1.
Proof.
  rewrite addConversations_unfold. cbv zeta.
  case_bool_decide; [by repeat split | apply preserved_refl].
Qed.

Lemma preserved_savePrompt w request :
  preserved w (savePrompt w request).1.
Proof.
  rewrite savePrompt_unfold. cbv zeta. simpl.
  repeat split; simpl; try done.
  - intros p o Ho. rewrite lookup_insert_ne; [done|].
    intros <-. by rewrite fresh_not_allocated in Ho.
  - destruct (truthy _); lia.
Qed.

Lemma preserved_deletePrompt w request :
  preserved w (deletePrompt w request).1.
Proof. by repeat split. Qed.

Lemma preserved_handleMessage w request :
  preserved w (handleMessage w request).1.
Proof.
  unfold handleMessage.
  destruct (Controller (action_of request)) as [p|] eqn:Ec; cycle 1.
  { case_bool_decide; apply preserved_refl. }
  assert (preserved w (call p w request).1) as Hp; cycle 1.
  { by destruct (call p w request) as [w' [r|e]]. }
  unfold Controller in Ec.
  destruct (assoc _ Controller_own) as [f|] eqn:Eo.
  - injection Ec as <-. apply assoc_Some in Eo.
    unfold Controller_own in Eo.
    repeat (apply elem_of_cons in Eo as [[= _ ->]|Eo]);
      [apply preserved_refl | apply preserved_refl
      | apply preserved_addConversations | apply preserved_getConversations
      | apply preserved_refl | apply preserved_savePrompt
      | apply preserved_deletePrompt | by apply elem_of_nil in Eo].
  - apply assoc_Some in Ec. unfold Object_prototype in Ec.
    repeat (apply elem_of_cons in Ec as [[= _ ->]|Ec]);
      try apply preserved_refl.
    by apply elem_of_nil in Ec.
Qed.

(** X23. What no request can change.  Whatever the message, handling it
    leaves the folders, the settings, the user record, the notes and the
    readiness flag as they are -- no controller creates, changes or
    deletes a folder --, changes the fields of no prompt object that
    exists, and does not lower the count of generated identifiers.  (The
    conversations and the prompts arrays are what the controllers do
    write.) *)
Theorem handleMessage_preserves w request :
  preserved w (handleMessage w request).1.
Proof. apply preserved_handleMessage. Qed.

Lemma deletePrompt_allocated w request :
  prompts_allocated w → prompts_allocated (deletePrompt w request).1.
Proof.
  unfold prompts_allocated, deletePrompt. simpl. apply Forall_List_filter.
Qed.

Lemma addConversations_allocated w request :
  prompts_allocated w → prompts_allocated (addConversations w request).1.
Proof.
  intros Halloc. rewrite addConversations_unfold. cbv zeta.
  by case_bool_decide.
Qed.

Lemma getConversations_allocated w request :
  prompts_allocated w → prompts_allocated (getConversations w request).1.
Proof.
  intros Halloc. by destruct (getConversations_after w request) as [-> | ->].
Qed.

(** Handling a request keeps every stored prompt an allocated object. *)
Lemma handleMessage_allocated w request :
  prompts_allocated w → prompts_allocated (handleMessage w request).1.
Proof.
  intros Halloc. unfold handleMessage.
  destruct (Controller (action_of request)) as [p|] eqn:Ec; cycle 1.
  { by case_bool_decide. }
  assert (prompts_allocated (call p w request).1) as Hp; cycle 1.
  { by destruct (call p w request) as [w' [r|e]]. }
  unfold Controller in Ec.
  destruct (assoc _ Controller_own) as [f|] eqn:Eo.
  - injection Ec as <-. apply assoc_Some in Eo.
    unfold Controller_own in Eo.
    repeat (apply elem_of_cons in Eo as [[= _ ->]|Eo]);
      [done | done | by apply addConversations_allocated
      | by apply getConversations_allocated | done
      | by apply savePrompt_allocated
      | by apply deletePrompt_allocated | by apply elem_of_nil in Eo].
  - apply assoc_Some in Ec. unfold Object_prototype in Ec.
    repeat (apply elem_of_cons in Ec as [[= _ ->]|Ec]); try done.
    by apply elem_of_nil in Ec.
Qed.

End GatewayMore.

(** ** Start-up and persistence *)

Section Startup.
Context `{Host}.
Implicit Types (w : World) (h : gmap loc obj) (os : list obj).

Lemma allocate_spec h os :
  (∀ p o, h !! p = Some o → (allocate h os).1 !! p = Some o)
  ∧ object_at (allocate h os).1 <$> (allocate h os).2 = os
  ∧ Forall (λ p, is_Some ((allocate h os).1 !! p)) (allocate h os).2.
Proof.
  revert h. induction os as [|o os IH]; intros h; [done|].
  cbn [allocate]. set (p := fresh (dom h)).
  destruct (IH (<[p := o]> h)) as (Hkeep & Hobjs & Halloc).
  destruct (allocate (<[p := o]> h) os) as [h' ps]. simpl in *.
  assert (h' !! p = Some o) as Hp by (apply Hkeep, lookup_insert_eq).
  split_and!.
  - intros q x Hq. apply Hkeep. rewrite lookup_insert_ne; [done|].
    intros <-. subst p. by rewrite fresh_not_allocated in Hq.
  - f_equal; [unfold object_at; by rewrite Hp | exact Hobjs].
  - constructor; [by eexists | done].
Qed.

(** X24. Save, then load.  Hydrating any state from the blob that the
    save callback writes for a state gives a ready state that holds what
    was saved: the same conversations, folders, settings, user and notes,
    and prompts with the same fields in the same order. *)
Theorem initDB_restores w w0 :
  let w' := initDB (Normal (Some (snapshot_of w))) w0 in
  snapshot_of w' = snapshot_of w ∧ isDBReady w' = true.
Proof.
  intros w'. subst w'. unfold initDB, hydrate, snapshot_of. simpl.
  destruct (allocate_spec (heap w0)
              (object_at (heap w) <$> prompts (localDB w))) as (_ & Hobjs & _).
  destruct (allocate _ _) as [h ps]. simpl in *. by rewrite Hobjs.
Qed.

(** X25. [initDB] always ends with the store ready.  When a blob is
    found, it is laid over the store: each of the six fields
    (conversations, folders, prompts, settings, user, notes) that the
    blob has replaces the whole field of the same name, also by an empty
    collection, and each field it lacks keeps the value it had; the
    prompt objects that existed are kept.  When nothing is stored or the
    read fails, the store is left as it was.  In every case the pending
    timer and the count of generated identifiers are untouched. *)
Theorem initDB_ready (loaded : completion (option Snapshot)) w :
  let w' := initDB loaded w in
  isDBReady w' = true
  ∧ saveTimeout w' = saveTimeout w
  ∧ drawn w' = drawn w
  ∧ (loaded = Normal None ∨ (∃ e, loaded = Throw e) →
     localDB w' = localDB w ∧ heap w' = heap w)
  ∧ (∀ s, loaded = Normal (Some s) →
       conversations (localDB w')
       = default (conversations (localDB w)) (snap_conversations s)
       ∧ folders (localDB w')
         = default (folders (localDB w)) (snap_folders s)
       ∧ object_at (heap w') <$> prompts (localDB w')
         = default (object_at (heap w) <$> prompts (localDB w))
                   (snap_prompts s)
       ∧ settings (localDB w')
         = default (settings (localDB w)) (snap_settings s)
       ∧ user (localDB w') = default (user (localDB w)) (snap_user s)
       ∧ notes (localDB w') = default (notes (localDB w)) (snap_notes s)
       ∧ (∀ p o, heap w !! p = Some o → heap w' !! p = Some o)).
Proof.
  intros w'. subst w'. split_and!.
  - by destruct loaded as [[s|]|e].
  - destruct loaded as [[s|]|e]; [|done..].
    unfold initDB, hydrate. simpl. by destruct (match snap_prompts s with
                                               | Some os => _ | None => _ end).
  - destruct loaded as [[s|]|e]; [|done..].
    unfold initDB, hydrate. simpl. by destruct (match snap_prompts s with
                                               | Some os => _ | None => _ end).
  - by intros [-> | [e ->]].
  - intros s ->. unfold initDB, hydrate. simpl.
    destruct (snap_prompts s) as [os|]; simpl; [|done].
    destruct (allocate_spec (heap w) os) as (Hkeep & Hobjs & _).
    by destruct (allocate (heap w) os) as [h ps].
Qed.

Lemma initDB_allocated (loaded : completion (option Snapshot)) w :
  prompts_allocated w → prompts_allocated (initDB loaded w).
Proof.
  intros Halloc. destruct loaded as [[s|]|e]; [|done..].
  unfold initDB, hydrate, prompts_allocated. simpl.
  destruct (snap_prompts s) as [os|]; simpl; [|done].
  destruct (allocate_spec (heap w) os) as (_ & _ & Hps).
  by destruct (allocate (heap w) os) as [h ps].
Qed.

(** X26. In every state that the script can reach -- start-up from the
    default state, whatever the storage held or however the read ended,
    followed by any sequence of handled requests -- every stored prompt
    is an allocated object and the store is ready. *)
Theorem reachable_allocated (loaded : completion (option Snapshot))
    (requests : list Request.t) :
  let w := fold_left (λ w request, (handleMessage w request).1)
                     requests (initDB loaded initial_world) in
  prompts_allocated w ∧ isDBReady w = true.
Proof.
  intros w. subst w.
  assert (prompts_allocated (initDB loaded initial_world)
          ∧ isDBReady (initDB loaded initial_world) = true) as Hinit.
  { split; [apply initDB_allocated; constructor|].
    by destruct loaded as [[s|]|e]. }
  revert Hinit. generalize (initDB loaded initial_world).
  induction requests as [|request requests IH]; intros w [Ha Hr]; [done|].
  cbn [fold_left]. apply IH. split; [by apply handleMessage_allocated|].
  destruct (preserved_handleMessage w request) as (_ & _ & _ & _ & -> & _).
  done.
Qed.

End Startup.

Section DebounceFacts.
Import Debounce.
Implicit Types (s : Debounce.t) (steps : list (Store * nat)).

Lemma burst_cons (db' : Store) (ms : nat) steps s :
  burst ((db', ms) :: steps) s = burst steps (elapse ms (mutate db' s)).
Proof. done. Qed.

(** A pause shorter than the delay after a mutation writes nothing and
    leaves the timeout pending. *)
Lemma mutate_elapse_quiet (db' : Store) (ms : nat) s :
  (ms < DEBOUNCE_DELAY)%nat →
  written (elapse ms (mutate db' s)) = written s
  ∧ due (elapse ms (mutate db' s)) = Some (now s + DEBOUNCE_DELAY)%nat
  ∧ now (elapse ms (mutate db' s)) = (now s + ms)%nat.
Proof.
  intros Hms. unfold elapse, mutate, saveDB. simpl.
  by destruct (Nat.leb_spec (now s + DEBOUNCE_DELAY) (now s + ms)); [lia|].
Qed.

Lemma burst_quiet steps s :
  Forall (λ step, step.2 < DEBOUNCE_DELAY)%nat steps →
  written (burst steps s) = written s.
Proof.
  intros Hsteps. revert s.
  induction Hsteps as [|[db' ms] steps Hms _ IH]; intros s; [done|].
  rewrite burst_cons, IH. by apply mutate_elapse_quiet.
Qed.

(** X27. Debounce.  However many mutations follow one another with less
    than the delay between them, nothing is written while the burst
    lasts; once the delay has passed after the last mutation, exactly one
    write has been made, and it holds the state left by the last
    mutation. *)
Theorem debounce_coalesces steps (last : Store) (ms : nat) s :
  Forall (λ step, step.2 < DEBOUNCE_DELAY)%nat steps →
  (DEBOUNCE_DELAY ≤ ms)%nat →
  written (mutate last (burst steps s)) = written s
  ∧ written (elapse ms (mutate last (burst steps s))) = written s ++ [last]
  ∧ due (elapse ms (mutate last (burst steps s))) = None.
Proof.
  intros Hsteps Hms.
  pose proof (burst_quiet steps s Hsteps) as Hw.
  unfold elapse, mutate, saveDB. simpl.
  destruct (Nat.leb_spec (now (burst steps s) + DEBOUNCE_DELAY)
              (now (burst steps s) + ms)); [|lia].
  simpl. by rewrite Hw.
Qed.

End DebounceFacts.

(** ** The further properties on sample data *)

Section MoreOnSamples.
Local Existing Instance example_host.

Local Ltac evaluated := compute_done.

Lemma sample_all_timed : Forall timed (conversations (localDB Sample.store)).
Proof. unfold timed. evaluated. Qed.

Lemma sample_selected :
  selected Sample.store Request.empty
  = Normal [Sample.chat_b; Sample.chat_c; Sample.chat_a].
Proof. by vm_compute. Qed.

Lemma getConversations_page_window_witness :
  (getConversations Sample.store (paged Request.empty 2 2)).2
  = Normal (Page [Sample.chat_a] 3 2 2).
Proof.
  apply (getConversations_page_window Sample.store Request.empty 2 2
           [Sample.chat_b; Sample.chat_c; Sample.chat_a]);
    [lia | lia | exact sample_selected].
Defined.

Lemma getConversations_empty_page_witness :
  (getConversations Sample.store (paged Request.empty 0 (-5))).2
  = Normal (Page [] 3 0 (-5)).
Proof.
  apply (getConversations_empty_page Sample.store Request.empty 0 (-5)
           [Sample.chat_b; Sample.chat_c; Sample.chat_a]);
    [by left | exact sample_selected].
Defined.

(** A negative page number does not give an empty page: it counts from
    the end of the results. *)
Example getConversations_negative_page :
  (getConversations Sample.store (paged Request.empty (-1) 1)).2
  = Normal (Page [Sample.chat_c] 3 (-1) 1).
Proof. by vm_compute. Qed.

Lemma getConversations_most_recent_first_witness :
  StronglySorted not_older [Sample.chat_b; Sample.chat_c; Sample.chat_a].
Proof.
  apply (getConversations_most_recent_first Sample.store Request.empty
           _ 3%nat 1 20 sample_all_timed).
  by vm_compute.
Defined.

Lemma getConversations_from_store_witness :
  (∀ c, c ∈ [Sample.chat_b; Sample.chat_c] →
        c ∈ conversations (localDB Sample.store))
  ∧ (3 ≤ length (conversations (localDB Sample.store)))%nat
  ∧ (length [Sample.chat_b; Sample.chat_c] ≤ 3)%nat.
Proof.
  apply (getConversations_from_store Sample.store (paged Request.empty 1 2)
           _ 3%nat 1 2).
  by vm_compute.
Defined.

Lemma getConversations_read_after_read_witness :
  (getConversations (getConversations Sample.store Request.empty).1
                    (folder_request (VStr "work"))).2
  = (getConversations Sample.store (folder_request (VStr "work"))).2.
Proof.
  exact (getConversations_read_after_read Sample.store Request.empty
           (folder_request (VStr "work")) sample_all_timed).
Defined.

Lemma getConversations_search_witness :
  (∀ c, c ∈ [Sample.chat_b] →
        c ∈ conversations (localDB Sample.store) ∧ title_contains "ET" c)
  ∧ (∀ c, c ∈ conversations (localDB Sample.store) →
          title_contains "ET" c → c ∈ [Sample.chat_b]).
Proof.
  destruct (getConversations_search Sample.store (search_request (VStr "ET")) "ET"
              [Sample.chat_b] eq_refl) as [Hsound Hcomplete];
    [done | by vm_compute |].
  split; [exact Hsound | exact (Hcomplete eq_refl)].
Defined.

Lemma handleMessage_bad_searchTerm_witness :
  handleMessage Sample.store (search_request (VNum 5))
  = (Sample.store, Failure "searchTerm.toLowerCase is not a function").
Proof.
  apply (handleMessage_bad_searchTerm Sample.store (search_request (VNum 5)) (VNum 5));
    [reflexivity | reflexivity | reflexivity | discriminate].
Defined.

Lemma handleMessage_bad_title_witness :
  let untitled : obj := {[ "id" := VStr "x"; "title" := VNum 7 ]} in
  let w := world_with [Sample.chat_a; untitled] [] in
  handleMessage w (search_request (VStr "alpha"))
  = (w, Failure "c.title.toLowerCase is not a function").
Proof.
  intros untitled w.
  apply (handleMessage_bad_title w (search_request (VStr "alpha")) "alpha" untitled
           (VNum 7));
    [reflexivity | reflexivity | discriminate | | reflexivity | reflexivity
    | discriminate].
  apply elem_of_cons. right. by left.
Defined.

Lemma getConversations_folder_witness :
  (getConversations Sample.store (folder_request (VStr "work"))).2
  = Normal (Page [Sample.chat_c; Sample.chat_a] 2 1 20)
  ∧ (getConversations Sample.store (folder_request (VStr "work"))).1
    = Sample.store.
Proof.
  destruct (getConversations_folder Sample.store (folder_request (VStr "work"))
              [] [] Sample.work_folder)
    as (_ & Hpages & Hsame);
    [reflexivity | discriminate | reflexivity | reflexivity | constructor
    | reflexivity |].
  split; [|exact Hsame]. unfold pages_through in Hpages.
  rewrite Hpages; [by vm_compute | apply sample_all_timed].
Defined.

Lemma getConversations_all_folders_witness :
  let w := world_with [Sample.chat_a; Sample.chat_b]
             [ {| folder_id := Some (VStr "all");
                  conversationIds := Some [VStr "a"] |} ] in
  getConversations w (folder_request (VStr "all"))
  = getConversations w (without_folderId (folder_request (VStr "all"))).
Proof.
  intros w. apply (getConversations_all_folders w). by left.
Defined.

Lemma addConversations_in_place_witness :
  let after :=
    conversations_after
      (addConversations Sample.store (batch_request Sample.batch)) in
  after !! 1%nat
  = Some {[ "id" := VStr "b"; "title" := VStr "Beta, renamed";
            "update_time" := VNum 3; "isTrashed" := VBool true ]}
  ∧ after !! 0%nat = Some Sample.chat_a.
Proof.
  intros after.
  assert (unique_ids (conversations (localDB Sample.store))) as Hw
    by (unfold unique_ids; evaluated).
  destruct (addConversations_in_place Sample.store Sample.batch 1
              Sample.chat_b Hw eq_refl) as (Hb & _ & _).
  destruct (addConversations_in_place Sample.store Sample.batch 0
              Sample.chat_a Hw eq_refl) as (_ & _ & Ha).
  split.
  - subst after. rewrite Hb. reflexivity.
  - apply Ha. unfold ids. evaluated.
Defined.

Lemma savePrompt_then_deletePrompt_witness :
  let w1 := (savePrompt Sample.prompt_world (prompt_request 2%positive)).1 in
  prompts (localDB w1) = [1%positive; 3%positive]
  ∧ prompts (localDB (deletePrompt w1
                        (delete_request (Some (VStr "uuid-0")))).1)
    = prompts (localDB Sample.prompt_world).
Proof.
  intros w1.
  assert (prompts_allocated Sample.prompt_world) as Halloc
    by (unfold prompts_allocated; evaluated).
  split; [by vm_compute|].
  pose proof (savePrompt_then_deletePrompt Sample.prompt_world
                (prompt_request 2%positive) Halloc) as Hback.
  cbv zeta in Hback. fold w1 in Hback.
  assert (field "id" (object_at (heap w1)
                        (fresh (dom (heap Sample.prompt_world))))
          = Some (VStr "uuid-0")) as Hk by by vm_compute.
  rewrite Hk in Hback. apply Hback.
  unfold prompt_ids. evaluated.
Defined.

Lemma prompt_ids_unique_witness :
  NoDup (prompt_ids
           (savePrompt Sample.prompt_world (prompt_request 2%positive)).1)
  ∧ NoDup (prompt_ids
             (deletePrompt Sample.prompt_world (prompt_request 2%positive)).1).
Proof.
  apply (prompt_ids_unique Sample.prompt_world (prompt_request 2%positive)).
  - unfold prompts_allocated. evaluated.
  - unfold prompt_ids. evaluated.
Defined.

Lemma savePrompt_again_witness :
  let w1 := (savePrompt Sample.prompt_world (prompt_request 2%positive)).1 in
  let w2 := (savePrompt w1 (prompt_request 3%positive)).1 in
  prompts (localDB w1) = [1%positive; 3%positive]
  ∧ prompts (localDB w2) = [1%positive; 4%positive]
  ∧ object_at (heap w2) 4%positive = object_at (heap w1) 3%positive.
Proof.
  intros w1 w2.
  assert (prompts_allocated Sample.prompt_world) as Halloc
    by (unfold prompts_allocated; evaluated).
  pose proof (savePrompt_again Sample.prompt_world (prompt_request 2%positive)
                Halloc) as Hagain.
  cbv zeta in Hagain.
  match type of Hagain with
  | ?P → _ => assert P as Hid by by vm_compute
  end.
  destruct (Hagain Hid) as (_ & Hobj & _ & _).
  split_and!; [by vm_compute | by vm_compute |].
  vm_compute in Hobj. vm_compute. exact Hobj.
Defined.

Lemma legacy_savePrompt_writes_witness :
  heap (Legacy.savePrompt Sample.prompt_world (prompt_request 2%positive)).1
    !! 2%positive
  = Some (<["id" := VStr "uuid-0"]> {[ "text" := VStr "new" ]}).
Proof.
  destruct (legacy_savePrompt_writes Sample.prompt_world
              (prompt_request 2%positive) 2%positive {[ "text" := VStr "new" ]}
              eq_refl eq_refl eq_refl) as (_ & Hheap & _).
  exact Hheap.
Defined.

Lemma handleMessage_unknown_action_witness :
  handleMessage Sample.store (action_request "exportAll")
  = (Sample.store, Failure "Unknown action")
  ∧ handleMessage Sample.store Request.empty
    = (Sample.store, Failure "Unknown action").
Proof.
  split.
  - apply (handleMessage_unknown_action Sample.store
             (action_request "exportAll")); [evaluated | discriminate].
  - apply (handleMessage_unknown_action Sample.store Request.empty);
      [evaluated | discriminate].
Defined.

Lemma debounce_coalesces_witness :
  let s0 :=
    {| Debounce.now := 0; Debounce.due := None;
       Debounce.db := default_localDB; Debounce.written := [] |} in
  let db1 := set_conversations [Sample.chat_a] default_localDB in
  let db2 := set_conversations [Sample.chat_a; Sample.chat_b] default_localDB in
  let db3 := set_conversations [Sample.chat_c] default_localDB in
  Debounce.written
    (Debounce.elapse 500
       (Debounce.mutate db3 (Debounce.burst [(db1, 100%nat); (db2, 499%nat)] s0)))
  = [db3].
Proof.
  intros s0 db1 db2 db3.
  destruct (debounce_coalesces [(db1, 100%nat); (db2, 499%nat)] db3 500 s0)
    as (_ & Hw & _).
  - repeat constructor; simpl; unfold Debounce.DEBOUNCE_DELAY; lia.
  - unfold Debounce.DEBOUNCE_DELAY. lia.
  - exact Hw.
Defined.

End MoreOnSamples.
